(** * BetterTelnet: the Telnet protocol filter [TelnetReader.Read]

    A shallow embedding of [TelnetReader] of main.go: the byte source it
    reads ([bufio.Reader] over the connection), [Read] itself with its
    nested subnegotiation loop, and the pump that calls it ([io.Copy]).
    The second half relates [Read] to the decoder state machine of the
    specification and derives the properties of the filter. *)

From Stdlib Require Import Strings.Byte.
From stdpp Require Import base list.

Local Open Scope nat_scope.

(** ** Bytes and protocol constants *)

#[global] Instance byte_eq_dec : EqDecision byte := Byte.byte_eq_dec.

(** Telnet Protocol Constants (main.go, lines 19-27). *)
Definition IAC  : byte := xff. (* 255, Interpret As Command *)
Definition DONT : byte := xfe. (* 254 *)
Definition DO   : byte := xfd. (* 253 *)
Definition WONT : byte := xfc. (* 252 *)
Definition WILL : byte := xfb. (* 251 *)
Definition SB   : byte := xfa. (* 250, Subnegotiation Begin *)
Definition SE   : byte := xf0. (* 240, Subnegotiation End *)

(** ** The byte source

    [TelnetReader] reads through Go's [bufio.Reader], over the [net.Conn]
    of the session.  Both belong to Go's libraries; they are modelled here
    by what [Read] uses of them: [ReadByte], [Buffered] and, underneath,
    the reads of the connection that fill the buffer.

    Go's [error] values: the two the libraries produce themselves and any
    other failure of the connection, kept apart by a code. *)
Inductive error : Type :=
  | EOF
  | ErrNoProgress
  | ErrNet (code : nat).

#[global] Instance error_eq_dec : EqDecision error.
Proof. solve_decision. Defined.

(** The connection handed to [NewTelnetReader].  [inbound] lists the bursts
    of bytes that arrive, in order: one burst is what is available to a
    single read before the peer pauses, and a read blocks until the next
    burst is there.  After the last burst every read fails with [closing].
    [outbound] records what has been written to the peer. *)
Record Conn : Type := mkConn {
  inbound  : list (list byte);
  closing  : error;
  outbound : list byte
}.

(** [conn.Read(buf)] with [len(buf) = max]: at most [max] bytes of the
    current burst; what does not fit stays available to the next read. *)
Definition conn_Read (max : nat) (c : Conn) : (list byte * option error) * Conn :=
  match inbound c with
  | [] => (([], Some (closing c)), c)
  | burst :: later =>
      let rest := match drop max burst with
                  | [] => later
                  | left_over => left_over :: later
                  end in
      ((take max burst, None), mkConn rest (closing c) (outbound c))
  end.

(** [bufio.Reader]: [buf] is the unread part [b.buf[b.r:b.w]] of its buffer,
    [rd] the reader it wraps. *)
Record Reader : Type := mkReader {
  buf : list byte;
  rd  : Conn
}.

Definition defaultBufSize : nat := 4096.
Definition maxConsecutiveEmptyReads : nat := 100.

Definition NewReader (c : Conn) : Reader := mkReader [] c.

(** [b.fill()] on an empty buffer: read from the connection, trying again
    after a read that returned no byte and no error, [i] times at most. *)
Fixpoint fill (i : nat) (c : Conn) : (list byte * option error) * Conn :=
  match i with
  | 0 => (([], Some ErrNoProgress), c)
  | S i' =>
      match conn_Read defaultBufSize c with
      | ((data, Some e), c') => ((data, Some e), c')
      | (([], None), c') => fill i' c'
      | ((data, None), c') => ((data, None), c')
      end
  end.

(** [b.ReadByte()]: the next buffered byte; on an empty buffer the buffer is
    filled first, and the error of a fill that brought nothing is returned
    ([b.err], handed out and cleared by [readErr] in the same call).  A
    fill brings bytes or an error, never both ([conn_Read]) and never
    neither ([fill_spec]), so the first and the last case below fix no
    behaviour of their own. *)
Definition ReadByte (b : Reader) : (error + byte) * Reader :=
  match buf b with
  | c :: rest => (inr c, mkReader rest (rd b))
  | [] =>
      match fill maxConsecutiveEmptyReads (rd b) with
      | ((c :: rest, _), rd') => (inr c, mkReader rest rd')
      | (([], Some e), rd') => (inl e, mkReader [] rd')
      | (([], None), rd') => (inl ErrNoProgress, mkReader [] rd')
      end
  end.

(** [b.Buffered()]: the number of bytes that can be read without a read of
    the connection. *)
Definition Buffered (b : Reader) : nat := length (buf b).

(** ** TelnetReader (main.go, lines 165-226) *)

Record TelnetReader : Type := mkTelnetReader {
  reader : Reader
}.

Definition NewTelnetReader (r : Conn) : TelnetReader :=
  mkTelnetReader (NewReader r).

(** What a call of [Read] hands back: [n], [err], the destination [p] as
    the call left it, and the reader afterwards. *)
Record ReadResult : Type := mkResult {
  res_n   : nat;
  res_err : option error;
  res_p   : list byte;
  res_t   : TelnetReader
}.

(** The inner [for] of the [SB] branch (lines 198-212).  [Some (None, r)]
    is the [break] after [IAC SE], [Some (Some e, r)] a failed read; [None]
    only when [fuel] rounds were not enough. *)
Fixpoint skipSubnegotiation (fuel : nat) (r : Reader)
    : option (option error * Reader) :=
  match fuel with
  | 0 => None
  | S fuel' =>
      match ReadByte r with
      | (inl e, r1) => Some (Some e, r1)
      | (inr sbBytes, r1) =>
          if decide (sbBytes = IAC) then
            match ReadByte r1 with
            | (inl e, r2) => Some (Some e, r2)
            | (inr next, r2) =>
                if decide (next = SE) then Some (None, r2)
                else skipSubnegotiation fuel' r2
            end
          else skipSubnegotiation fuel' r1
      end
  end.

(** How one round of the outer loop ends. *)
Inductive Round : Type :=
  | Return (res : ReadResult)                     (* return n, err *)
  | Continue (p : list byte) (n : nat) (r : Reader) (* next round, no test *)
  | Break (p : list byte) (n : nat) (r : Reader).   (* break *)

(** Lines 221-223: the test at the end of the loop body. *)
Definition endOfRound (p : list byte) (n : nat) (r : Reader) : Round :=
  if decide (Buffered r = 0 ∧ 0 < n) then Break p n r else Continue p n r.

(** Lines 178-223: the body of the outer loop, entered with [n < len(p)]. *)
Definition round (fuel : nat) (p : list byte) (n : nat) (r : Reader)
    : option Round :=
  match ReadByte r with
  | (inl e, r1) => Some (Return (mkResult n (Some e) p (mkTelnetReader r1)))
  | (inr b, r1) =>
      if decide (b = IAC) then
        match ReadByte r1 with
        | (inl e, r2) =>
            Some (Return (mkResult n (Some e) p (mkTelnetReader r2)))
        | (inr cmd, r2) =>
            if decide (cmd = IAC) then
              Some (endOfRound (<[n := IAC]> p) (S n) r2)
            else if decide (cmd = DO ∨ cmd = DONT ∨ cmd = WILL ∨ cmd = WONT) then
              match ReadByte r2 with
              | (inl e, r3) =>
                  Some (Return (mkResult n (Some e) p (mkTelnetReader r3)))
              | (inr _, r3) => Some (endOfRound p n r3)
              end
            else if decide (cmd = SB) then
              match skipSubnegotiation fuel r2 with
              | None => None
              | Some (Some e, r3) =>
                  Some (Return (mkResult n (Some e) p (mkTelnetReader r3)))
              | Some (None, r3) => Some (endOfRound p n r3)
              end
            else Some (Continue p n r2)
        end
      else Some (endOfRound (<[n := b]> p) (S n) r1)
  end.

(** Lines 177-225: [for n < len(p) { ... }; return n, nil]. *)
Fixpoint Read_loop (fuel : nat) (p : list byte) (n : nat) (r : Reader)
    : option ReadResult :=
  match fuel with
  | 0 => None
  | S fuel' =>
      if decide (n < length p) then
        match round fuel' p n r with
        | None => None
        | Some (Return res) => Some res
        | Some (Continue p' n' r') => Read_loop fuel' p' n' r'
        | Some (Break p' n' r') =>
            Some (mkResult n' None p' (mkTelnetReader r'))
        end
      else Some (mkResult n None p (mkTelnetReader r))
  end.

(** The bytes that are still to come from a reader. *)
Definition unread (r : Reader) : list byte :=
  buf r ++ concat (inbound (rd r)).

(** [t.Read(p)].  Every round consumes a byte or returns, so the rounds
    are bounded by the bytes still to come: the result is never [None]
    (see [Read_total]). *)
Definition Read (p : list byte) (t : TelnetReader) : option ReadResult :=
  Read_loop (1 + length (unread (reader t))) p 0 (reader t).

(** The bytes a call emitted: [p[:n]]. *)
Definition emitted (res : ReadResult) : list byte :=
  take (res_n res) (res_p res).

(** ** The pump (main.go, line 93: [io.Copy(outputWriter, telnetReader)])

    Go's [io.Copy] calls [Read] with one buffer [p] over and over, writes
    [p[:n]] to the sink after each call and stops at the first error.  The
    result is what was written, the error that ended the pump and the
    reader then; it is never [None] when [p] has room for a byte (see
    [copy_loop_total]). *)
Fixpoint copy_loop (fuel : nat) (p : list byte) (t : TelnetReader)
    (written : list byte) : option (list byte * error * TelnetReader) :=
  match fuel with
  | 0 => None
  | S fuel' =>
      match Read p t with
      | None => None
      | Some res =>
          let written' := written ++ emitted res in
          match res_err res with
          | Some e => Some (written', e, res_t res)
          | None => copy_loop fuel' (res_p res) (res_t res) written'
          end
      end
  end.

Definition Copy (p : list byte) (t : TelnetReader)
    : option (list byte * error * TelnetReader) :=
  copy_loop (1 + length (unread (reader t))) p t [].

(** ** The decoder of the specification

    The state machine in the specification's words: the decoder states of
    its data model (section 3) and the byte-by-byte transition of its
    processing algorithm (section 4.1, steps 2 to 5).  The code keeps no
    such state, it reads on inside one call; this second definition is
    what the theorems below compare [Read] with. *)
Inductive DecoderState : Type :=
  | Idle
  | SeenIAC
  | InNegotiation
  | InSubnegotiation
  | InSubnegotiationIAC.

#[global] Instance DecoderState_eq_dec : EqDecision DecoderState.
Proof. solve_decision. Defined.

Definition is_negotiation (cmd : byte) : Prop :=
  cmd = DO ∨ cmd = DONT ∨ cmd = WILL ∨ cmd = WONT.

Definition step (s : DecoderState) (b : byte) : DecoderState * list byte :=
  match s with
  | Idle => if decide (b = IAC) then (SeenIAC, []) else (Idle, [b])
  | SeenIAC =>
      if decide (b = IAC) then (Idle, [IAC])
      else if decide (is_negotiation b) then (InNegotiation, [])
      else if decide (b = SB) then (InSubnegotiation, [])
      else (Idle, [])
  | InNegotiation => (Idle, [])
  | InSubnegotiation =>
      if decide (b = IAC) then (InSubnegotiationIAC, [])
      else (InSubnegotiation, [])
  | InSubnegotiationIAC =>
      if decide (b = SE) then (Idle, []) else (InSubnegotiation, [])
  end.

(** The state reached and the bytes emitted on a run of raw bytes. *)
Fixpoint run (s : DecoderState) (raw : list byte) : DecoderState * list byte :=
  match raw with
  | [] => (s, [])
  | b :: raw' =>
      let '(s1, o1) := step s b in
      let '(s2, o2) := run s1 raw' in
      (s2, o1 ++ o2)
  end.

Definition decode (raw : list byte) : list byte := (run Idle raw).2.

(** ** Shapes of raw input *)

(** Plain data: no byte is [IAC]. *)
Definition plain (raw : list byte) : Prop := Forall (λ b, b ≠ IAC) raw.

(** The inside of a subnegotiation block that does not hold its terminator:
    bytes other than [IAC], and pairs of [IAC] and a byte other than [SE]. *)
Inductive sb_body : list byte → Prop :=
  | sb_nil : sb_body []
  | sb_byte b body : b ≠ IAC → sb_body body → sb_body (b :: body)
  | sb_pair x body : x ≠ SE → sb_body body → sb_body (IAC :: x :: body).

(** A control sequence cut off before its end. *)
Inductive incomplete : list byte → Prop :=
  | inc_iac : incomplete [IAC]
  | inc_negotiation cmd : is_negotiation cmd → incomplete [IAC; cmd]
  | inc_sb body : sb_body body → incomplete (IAC :: SB :: body)
  | inc_sb_iac body : sb_body body → incomplete (IAC :: SB :: body ++ [IAC]).

(** Bursts that carry no byte; a connection is [paced] when [fill] cannot
    run into [maxConsecutiveEmptyReads] of them. *)
Fixpoint empties (bursts : list (list byte)) : nat :=
  match bursts with
  | [] => 0
  | [] :: later => S (empties later)
  | _ :: later => empties later
  end.

Definition paced (c : Conn) : Prop :=
  empties (inbound c) < maxConsecutiveEmptyReads.

(** ** Relations between the states of a call

    The vocabulary of the statements below: what a stretch of the code
    took off the source, and how that compares with the decoder. *)

(** [r'] is a later state of the reader [r] over the same connection. *)
Definition later_of (r r' : Reader) : Prop :=
  closing (rd r') = closing (rd r)
  ∧ outbound (rd r') = outbound (rd r)
  ∧ empties (inbound (rd r')) ≤ empties (inbound (rd r)).

(** From [r] to [r'] exactly the bytes [raw] were taken off the source. *)
Definition consumes (r : Reader) (raw : list byte) (r' : Reader) : Prop :=
  unread r = raw ++ unread r' ∧ later_of r r'.

(** How a failed read leaves the reader. *)
Definition failed (r : Reader) (e : error) (r' : Reader) : Prop :=
  buf r' = [] ∧ consumes r [] r'
  ∧ (paced (rd r) → e = closing (rd r) ∧ unread r' = []).

(** A round that did not return: it took [raw], at least one byte, off the
    source, the decoder went through [raw] from [Idle] to [Idle], and what
    the decoder emitted on the way is what the round appended to [p[:n]]. *)
Definition advanced (p : list byte) (n : nat) (r : Reader)
    (p' : list byte) (n' : nat) (r' : Reader) : Prop :=
  ∃ raw o,
    consumes r raw r' ∧ raw ≠ [] ∧ run Idle raw = (Idle, o)
    ∧ take n' p' = take n p ++ o
    ∧ length p' = length p ∧ n ≤ n' ∧ n' ≤ length p.

(** A round that returned: the read that failed came after [raw], on
    which the decoder emitted nothing. *)
Definition returned (p : list byte) (n : nat) (r : Reader)
    (res : ReadResult) : Prop :=
  res_n res = n ∧ res_p res = p
  ∧ ∃ e raw st,
      res_err res = Some e
      ∧ consumes r raw (reader (res_t res)) ∧ run Idle raw = (st, [])
      ∧ buf (reader (res_t res)) = []
      ∧ (paced (rd r) → e = closing (rd r) ∧ unread (reader (res_t res)) = []).

Definition round_ok (p : list byte) (n : nat) (r : Reader) (out : Round)
    : Prop :=
  match out with
  | Return res => returned p n r res
  | Continue p' n' r' => advanced p n r p' n' r'
  | Break p' n' r' => advanced p n r p' n' r' ∧ Buffered r' = 0 ∧ 0 < n'
  end.

(** What the loop, entered with [n] bytes in [p], has done when it hands
    back [res]: it took [raw] off the source, and [p[:n]] grew by what the
    decoder emits on [raw].  Without an error the decoder is back in [Idle]
    and the loop ended on one of its two exits; with an error the read
    that failed is the last thing that happened. *)
Definition call_ok (p : list byte) (n : nat) (r : Reader) (res : ReadResult)
    : Prop :=
  ∃ raw st o,
    consumes r raw (reader (res_t res)) ∧ run Idle raw = (st, o)
    ∧ take (res_n res) (res_p res) = take n p ++ o
    ∧ length (res_p res) = length p
    ∧ n ≤ res_n res ∧ res_n res ≤ length p
    ∧ match res_err res with
      | None =>
          st = Idle
          ∧ (res_n res = length p
             ∨ (Buffered (reader (res_t res)) = 0 ∧ 0 < res_n res))
      | Some e =>
          Buffered (reader (res_t res)) = 0
          ∧ (paced (rd r) →
             e = closing (rd r) ∧ unread (reader (res_t res)) = [])
      end.

(** The connection that delivers [bursts] and then closes with [e], after
    [sent] has gone to the peer. *)
Definition delivering (e : error) (sent : list byte)
    (bursts : list (list byte)) : Conn :=
  mkConn bursts e sent.

(** A command byte that [Read] takes for none of its own: after IAC it
    is not IAC, not DO, DONT, WILL or WONT, and not SB, so that line 213 is
    reached. *)
Definition unrecognized (cmd : byte) : Prop :=
  cmd ≠ IAC ∧ ¬ is_negotiation cmd ∧ cmd ≠ SB.

(** The sender's side of lines 189-191, where IAC IAC stands for the data
    byte 255: data as it travels, every byte 255 doubled. *)
Fixpoint escape (data : list byte) : list byte :=
  match data with
  | [] => []
  | b :: data' =>
      if decide (b = IAC) then IAC :: IAC :: escape data'
      else b :: escape data'
  end.

(** ** The byte source: what a read consumes *)

Section Source.

Lemma defaultBufSize_pos : 0 < defaultBufSize.
Proof. unfold defaultBufSize. lia. Qed.

Lemma empties_nonempty bursts :
  Forall (λ burst, burst ≠ []) bursts → empties bursts = 0.
Proof.
  induction 1 as [|burst later Hne _ IH]; [done|].
  destruct burst; [done|]. exact IH.
Qed.

Lemma empties_cons_le burst later : empties later ≤ empties (burst :: later).
Proof. destruct burst; simpl; lia. Qed.

Lemma conn_Read_spec max c data err c' :
  0 < max →
  conn_Read max c = ((data, err), c') →
  concat (inbound c) = data ++ concat (inbound c')
  ∧ closing c' = closing c ∧ outbound c' = outbound c
  ∧ empties (inbound c') ≤ empties (inbound c)
  ∧ match err with
    | Some e => e = closing c ∧ data = [] ∧ inbound c = [] ∧ c' = c
    | None => data = [] → empties (inbound c') < empties (inbound c)
    end.
Proof.
  intros Hmax. unfold conn_Read.
  destruct c as [inb cl outb]; simpl.
  destruct inb as [|burst later]; intros [= <- <- <-]; simpl.
  { done. }
  assert (Hsplit : burst = take max burst ++ drop max burst)
    by (symmetry; apply take_drop).
  destruct (drop max burst) as [|x left_over] eqn:Hdrop; simpl.
  - rewrite app_nil_r in Hsplit. rewrite <- Hsplit.
    repeat split; try done.
    + apply empties_cons_le.
    + intros ->. simpl. lia.
  - repeat split; try done.
    + transitivity ((take max burst ++ x :: left_over) ++ concat later);
        [by rewrite <- Hsplit | by rewrite <- app_assoc].
    + destruct burst; simpl; [by rewrite drop_nil in Hdrop | lia].
    + intros Hnil. destruct burst; [by rewrite drop_nil in Hdrop|].
      destruct max; [lia | done].
Qed.

Lemma fill_spec i c data err c' :
  fill i c = ((data, err), c') →
  concat (inbound c) = data ++ concat (inbound c')
  ∧ closing c' = closing c ∧ outbound c' = outbound c
  ∧ empties (inbound c') ≤ empties (inbound c)
  ∧ match err with
    | Some e =>
        data = []
        ∧ (empties (inbound c) < i →
           e = closing c ∧ inbound c' = [] ∧ concat (inbound c) = [])
    | None => data ≠ []
    end.
Proof.
  revert c. induction i as [|i IH]; intros c; simpl.
  { intros [= <- <- <-]. repeat split; try done; lia. }
  destruct (conn_Read defaultBufSize c) as [[d oe] c1] eqn:Hread.
  apply (conn_Read_spec _ _ _ _ _ defaultBufSize_pos) in Hread.
  destruct Hread as (Hcat & Hcl & Hout & Hle & Herr).
  destruct oe as [e|].
  - destruct Herr as (-> & -> & Hnil & ->). intros [= <- <- <-].
    repeat split; try done. by rewrite Hnil.
  - destruct d as [|b d].
    + intros Hfill. apply IH in Hfill.
      destruct Hfill as (Hcat' & Hcl' & Hout' & Hle' & Herr').
      specialize (Herr eq_refl). simpl in Hcat.
      split_and!; [congruence.. | lia |].
      destruct err as [e|]; [|done].
      destruct Herr' as [-> Hpaced]. split; [done|].
      intros Hi. destruct Hpaced as (-> & Hnil & Hcat''); [lia|].
      split_and!; congruence.
    + intros [= <- <- <-]. repeat split; try done.
Qed.

#[local] Arguments fill : simpl never.

Lemma later_of_refl r : later_of r r.
Proof. unfold later_of. auto. Qed.

Lemma later_of_trans r1 r2 r3 : later_of r1 r2 → later_of r2 r3 → later_of r1 r3.
Proof. unfold later_of. intros (? & ? & ?) (? & ? & ?). repeat split; try congruence; lia. Qed.

Lemma later_of_paced r r' : later_of r r' → paced (rd r) → paced (rd r').
Proof. unfold later_of, paced. intros (_ & _ & ?) ?. lia. Qed.

(** A byte read is the first of the bytes to come. *)
Lemma ReadByte_byte r b r' :
  ReadByte r = (inr b, r') → unread r = b :: unread r' ∧ later_of r r'.
Proof.
  unfold ReadByte, unread, later_of. destruct r as [bf c]; simpl.
  destruct bf as [|x bf].
  - destruct (fill maxConsecutiveEmptyReads c) as [[d oe] c1] eqn:Hfill.
    apply fill_spec in Hfill.
    destruct Hfill as (Hcat & Hcl & Hout & Hle & Herr).
    destruct d as [|y d]; [by destruct oe|].
    intros [= <- <-]; simpl. rewrite Hcat. done.
  - intros [= <- <-]; simpl. repeat split; done.
Qed.

(** A failed read: over a paced connection nothing was left to read, and
    the error is the one the connection closed with. *)
Lemma ReadByte_error r e r' :
  ReadByte r = (inl e, r') →
  buf r' = [] ∧ unread r' = unread r ∧ later_of r r'
  ∧ (paced (rd r) → e = closing (rd r) ∧ unread r = []).
Proof.
  unfold ReadByte, unread, later_of, paced. destruct r as [bf c]; simpl.
  destruct bf as [|x bf]; [|done].
  destruct (fill maxConsecutiveEmptyReads c) as [[d oe] c1] eqn:Hfill.
  apply fill_spec in Hfill.
  destruct Hfill as (Hcat & Hcl & Hout & Hle & Herr).
  destruct d as [|y d]; [|done].
  destruct oe as [e0|]; [|done].
  intros [= <- <-]; simpl. destruct Herr as [_ Herr].
  split_and!; try done.
  intros Hpaced. destruct (Herr Hpaced) as (-> & _ & ->). done.
Qed.

End Source.

(** ** The decoder on shaped input *)

Section Decoder.

Lemma run_app s raw1 raw2 :
  run s (raw1 ++ raw2) =
  let '(s1, o1) := run s raw1 in
  let '(s2, o2) := run s1 raw2 in
  (s2, o1 ++ o2).
Proof.
  revert s. induction raw1 as [|b raw1 IH]; intros s; simpl.
  - by destruct (run s raw2).
  - destruct (step s b) as [s1 o1]. rewrite IH.
    destruct (run s1 raw1) as [s2 o2]. destruct (run s2 raw2) as [s3 o3].
    by rewrite app_assoc.
Qed.

Lemma run_plain raw : plain raw → run Idle raw = (Idle, raw).
Proof.
  induction 1 as [|b raw Hb _ IH]; simpl; [done|].
  destruct (decide (b = IAC)); [done|]. by rewrite IH.
Qed.

Lemma run_sb_body body :
  sb_body body → run InSubnegotiation body = (InSubnegotiation, []).
Proof.
  induction 1 as [|b body Hb _ IH|x body Hx _ IH]; simpl.
  - done.
  - destruct (decide (b = IAC)); [done|]. by rewrite IH.
  - destruct (decide (IAC = IAC)); [|done].
    destruct (decide (x = SE)); [done|]. by rewrite IH.
Qed.

Lemma run_incomplete raw :
  incomplete raw → ∃ st, st ≠ Idle ∧ run Idle raw = (st, []).
Proof.
  destruct 1 as [|cmd Hcmd|body Hbody|body Hbody].
  - by exists SeenIAC.
  - exists InNegotiation. split; [done|]. simpl.
    destruct (decide (cmd = IAC)) as [->|_].
    { unfold is_negotiation in Hcmd. by destruct Hcmd as [?|[?|[?|?]]]. }
    by destruct (decide (is_negotiation cmd)).
  - exists InSubnegotiation. split; [done|].
    change (IAC :: SB :: body) with ([IAC; SB] ++ body).
    rewrite run_app. simpl. by rewrite run_sb_body.
  - exists InSubnegotiationIAC. split; [done|].
    change (IAC :: SB :: body ++ [IAC]) with ([IAC; SB] ++ body ++ [IAC]).
    rewrite run_app. simpl. by rewrite run_app, run_sb_body.
Qed.

Lemma run_command cmd raw :
  run Idle (IAC :: cmd :: raw) =
  let '(s1, o1) := step SeenIAC cmd in
  let '(s2, o2) := run s1 raw in
  (s2, o1 ++ o2).
Proof.
  cbn [run]. change (step Idle IAC) with (SeenIAC, @nil byte). cbv beta iota.
  destruct (step SeenIAC cmd) as [s1 o1]. by destruct (run s1 raw).
Qed.

Lemma decode_plain raw : plain raw → decode raw = raw.
Proof. intros H. unfold decode. by rewrite run_plain. Qed.

End Decoder.

(** ** One call of [Read] against the decoder *)

Section ReadAgainstDecoder.

#[local] Arguments fill : simpl never.

Lemma consumes_byte r b r' : ReadByte r = (inr b, r') → consumes r [b] r'.
Proof. intros H. by apply ReadByte_byte in H. Qed.

Lemma consumes_trans r1 raw1 r2 raw2 r3 :
  consumes r1 raw1 r2 → consumes r2 raw2 r3 → consumes r1 (raw1 ++ raw2) r3.
Proof.
  intros [H1 L1] [H2 L2]. split; [|by eapply later_of_trans].
  by rewrite H1, H2, app_assoc.
Qed.

Lemma consumes_paced r raw r' : consumes r raw r' → paced (rd r) → paced (rd r').
Proof. intros [_ L]. by apply later_of_paced. Qed.

Lemma consumes_length r raw r' :
  consumes r raw r' → length (unread r) = length raw + length (unread r').
Proof. intros [H _]. by rewrite H, length_app. Qed.

Lemma failed_ReadByte r e r' : ReadByte r = (inl e, r') → failed r e r'.
Proof.
  intros H. apply ReadByte_error in H.
  destruct H as (Hbuf & Huneq & Hlater & Hp). split_and!; try done.
  intros Hpaced. destruct (Hp Hpaced) as (-> & Hnil). split; [done|].
  by rewrite Huneq.
Qed.

Lemma failed_after r raw r1 e r' :
  consumes r raw r1 → failed r1 e r' →
  buf r' = [] ∧ consumes r raw r'
  ∧ (paced (rd r) → e = closing (rd r) ∧ unread r' = []).
Proof.
  intros Hc (Hbuf & Hc' & Hp). split_and!; [done| |].
  - rewrite <- (app_nil_r raw). by eapply consumes_trans.
  - intros Hpaced. destruct Hp as [-> ?]; [by eapply consumes_paced|].
    split; [|done]. by destruct Hc as (_ & -> & _).
Qed.

(** The subnegotiation loop ends on [IAC SE] with the decoder back in
    [Idle], or on a failed read inside the block. *)
Lemma skipSubnegotiation_spec fuel r oe r' :
  skipSubnegotiation fuel r = Some (oe, r') →
  ∃ raw st,
    consumes r raw r' ∧ run InSubnegotiation raw = (st, [])
    ∧ match oe with
      | None => st = Idle ∧ raw ≠ []
      | Some e =>
          st ≠ Idle ∧ buf r' = []
          ∧ (paced (rd r) → e = closing (rd r) ∧ unread r' = [])
      end.
Proof.
  revert r. induction fuel as [|fuel IH]; intros r; simpl; [done|].
  destruct (ReadByte r) as [[e|sbBytes] r1] eqn:H1.
  { intros [= <- <-]. apply failed_ReadByte in H1.
    destruct H1 as (? & ? & ?). exists [], InSubnegotiation. by split_and!. }
  apply consumes_byte in H1.
  destruct (decide (sbBytes = IAC)) as [->|Hsb].
  - destruct (ReadByte r1) as [[e|next] r2] eqn:H2.
    { intros [= <- <-]. apply failed_ReadByte in H2.
      destruct (failed_after _ _ _ _ _ H1 H2) as (? & ? & ?).
      exists [IAC], InSubnegotiationIAC. by split_and!. }
    apply consumes_byte in H2.
    pose proof (consumes_trans _ _ _ _ _ H1 H2) as H12.
    destruct (decide (next = SE)) as [->|Hnext].
    + intros [= <- <-]. exists [IAC; SE], Idle. by split_and!.
    + intros Hrec. apply IH in Hrec.
      destruct Hrec as (raw & st & Hc & Hrun & Hoe).
      exists ([IAC; next] ++ raw), st. split_and!.
      * by eapply consumes_trans.
      * rewrite run_app. simpl.
        destruct (decide (next = SE)); [done|]. by rewrite Hrun.
      * destruct oe as [e|]; [|by destruct Hoe].
        destruct Hoe as (? & ? & Hp). split_and!; try done.
        intros Hpaced. destruct Hp as [-> ?]; [by eapply consumes_paced|].
        split; [|done]. by destruct H12 as (_ & -> & _).
  - intros Hrec. apply IH in Hrec.
    destruct Hrec as (raw & st & Hc & Hrun & Hoe).
    exists ([sbBytes] ++ raw), st. split_and!.
    + by eapply consumes_trans.
    + simpl. destruct (decide (sbBytes = IAC)); [done|]. by rewrite Hrun.
    + destruct oe as [e|]; [|by destruct Hoe].
      destruct Hoe as (? & ? & Hp). split_and!; try done.
      intros Hpaced. destruct Hp as [-> ?]; [by eapply consumes_paced|].
      split; [|done]. by destruct H1 as (_ & -> & _).
Qed.

Lemma skipSubnegotiation_total fuel r :
  length (unread r) < fuel → is_Some (skipSubnegotiation fuel r).
Proof.
  revert r. induction fuel as [|fuel IH]; intros r Hlen; simpl; [lia|].
  destruct (ReadByte r) as [[e|sbBytes] r1] eqn:H1; [done|].
  apply consumes_byte, consumes_length in H1. simpl in H1.
  destruct (decide (sbBytes = IAC)); [|apply IH; lia].
  destruct (ReadByte r1) as [[e2|next] r2] eqn:H2; [done|].
  apply consumes_byte, consumes_length in H2. simpl in H2.
  destruct (decide (next = SE)); [done|]. apply IH. lia.
Qed.

Lemma endOfRound_ok p n r p' n' r' :
  advanced p n r p' n' r' → round_ok p n r (endOfRound p' n' r').
Proof.
  intros H. unfold endOfRound.
  destruct (decide (Buffered r' = 0 ∧ 0 < n')) as [[??]|_]; simpl; auto.
Qed.

Lemma returned_after p n r raw st r1 e r' :
  consumes r raw r1 → run Idle raw = (st, []) → failed r1 e r' →
  returned p n r (mkResult n (Some e) p (mkTelnetReader r')).
Proof.
  intros Hc Hrun Hf. destruct (failed_after _ _ _ _ _ Hc Hf) as (? & ? & ?).
  split_and!; try done. exists e, raw, st. by split_and!.
Qed.

Lemma take_store (p : list byte) (n : nat) (b : byte) :
  n < length p → take (S n) (<[n := b]> p) = take n p ++ [b].
Proof.
  intros Hn. rewrite (take_S_r _ _ b) by (by apply list_lookup_insert_eq).
  by rewrite take_insert_ge.
Qed.

Lemma emit_advanced p n r raw b r' :
  n < length p → consumes r raw r' → raw ≠ [] → run Idle raw = (Idle, [b]) →
  advanced p n r (<[n := b]> p) (S n) r'.
Proof.
  intros Hn Hc Hraw Hrun. exists raw, [b]. split_and!; try done; try lia.
  - by apply take_store.
  - by rewrite length_insert.
Qed.

Lemma silent_advanced p n r raw r' :
  n < length p → consumes r raw r' → raw ≠ [] → run Idle raw = (Idle, []) →
  advanced p n r p n r'.
Proof.
  intros Hn Hc Hraw Hrun. exists raw, []. split_and!; try done; try lia.
  by rewrite app_nil_r.
Qed.

(** The body of the loop, case by case. *)
Lemma round_spec fuel p n r out :
  n < length p → round fuel p n r = Some out → round_ok p n r out.
Proof.
  intros Hn. unfold round.
  destruct (ReadByte r) as [[e|b] r1] eqn:H1.
  { intros [= <-]. apply failed_ReadByte in H1.
    eapply (returned_after _ _ _ [] Idle); [|done|done].
    split; [done|apply later_of_refl]. }
  apply consumes_byte in H1.
  destruct (decide (b = IAC)) as [->|Hb]; cycle 1.
  { intros [= <-]. apply endOfRound_ok. eapply emit_advanced; try done.
    simpl. by destruct (decide (b = IAC)). }
  destruct (ReadByte r1) as [[e|cmd] r2] eqn:H2.
  { intros [= <-]. apply failed_ReadByte in H2.
    by eapply (returned_after _ _ _ [IAC] SeenIAC). }
  apply consumes_byte in H2.
  pose proof (consumes_trans _ _ _ _ _ H1 H2) as H12. simpl in H12.
  destruct (decide (cmd = IAC)) as [->|Hcmd].
  { intros [= <-]. apply endOfRound_ok. by eapply emit_advanced. }
  pose proof (run_command cmd) as Hstep.
  destruct (decide (cmd = DO ∨ cmd = DONT ∨ cmd = WILL ∨ cmd = WONT))
    as [Hneg|Hneg].
  { assert (Hs : step SeenIAC cmd = (InNegotiation, [])).
    { simpl. destruct (decide (cmd = IAC)); [done|].
      by destruct (decide (is_negotiation cmd)). }
    destruct (ReadByte r2) as [[e|opt] r3] eqn:H3.
    - intros [= <-]. apply failed_ReadByte in H3.
      eapply (returned_after _ _ _ [IAC; cmd] InNegotiation); try done.
      by rewrite Hstep, Hs.
    - intros [= <-]. apply consumes_byte in H3.
      apply endOfRound_ok. eapply (silent_advanced _ _ _ [IAC; cmd; opt]);
        try done.
      + by apply (consumes_trans _ _ _ _ _ H12 H3).
      + by rewrite Hstep, Hs. }
  destruct (decide (cmd = SB)) as [->|Hsb].
  { destruct (skipSubnegotiation fuel r2) as [[[e|] r3]|] eqn:H3; [| |done].
    - intros [= <-]. apply skipSubnegotiation_spec in H3.
      destruct H3 as (raw & st & Hc & Hrun & Hst & Hbuf & Hp).
      pose proof (consumes_trans _ _ _ _ _ H12 Hc) as Hall.
      split_and!; try done. exists e, ([IAC; SB] ++ raw), st.
      split_and!; try done.
      + rewrite run_app. simpl. by rewrite Hrun.
      + intros Hpaced.
        destruct Hp as [-> ?]; [exact (consumes_paced _ _ _ H12 Hpaced)|].
        split; [|done]. by destruct H12 as (_ & -> & _).
    - intros [= <-]. apply skipSubnegotiation_spec in H3.
      destruct H3 as (raw & st & Hc & Hrun & -> & Hraw).
      apply endOfRound_ok.
      eapply (silent_advanced _ _ _ ([IAC; SB] ++ raw)); try done.
      + by apply (consumes_trans _ _ _ _ _ H12 Hc).
      + rewrite run_app. simpl. by rewrite Hrun. }
  intros [= <-]. simpl. eapply (silent_advanced _ _ _ [IAC; cmd]); try done.
  rewrite Hstep. simpl. destruct (decide (cmd = IAC)); [done|].
  destruct (decide (is_negotiation cmd)); [done|].
  by destruct (decide (cmd = SB)).
Qed.

Lemma round_total fuel p n r :
  length (unread r) ≤ fuel → is_Some (round fuel p n r).
Proof.
  intros Hlen. unfold round.
  destruct (ReadByte r) as [[e|b] r1] eqn:H1; [done|].
  apply consumes_byte, consumes_length in H1. simpl in H1.
  destruct (decide (b = IAC)); [|done].
  destruct (ReadByte r1) as [[e2|cmd] r2] eqn:H2; [done|].
  apply consumes_byte, consumes_length in H2. simpl in H2.
  destruct (decide (cmd = IAC)); [done|].
  destruct (decide (cmd = DO ∨ cmd = DONT ∨ cmd = WILL ∨ cmd = WONT)).
  { by destruct (ReadByte r2) as [[e3|opt] r3]. }
  destruct (decide (cmd = SB)); [|done].
  destruct (skipSubnegotiation_total fuel r2) as [[[e3|] r3] ->]; [lia|done..].
Qed.

Lemma advanced_call_ok p n r p' n' r' res :
  advanced p n r p' n' r' → call_ok p' n' r' res → call_ok p n r res.
Proof.
  intros (raw1 & o1 & Hc1 & _ & Hrun1 & Htake1 & Hlen1 & Hn1 & Hn1')
         (raw2 & st & o2 & Hc2 & Hrun2 & Htake2 & Hlen2 & Hn2 & Hn2' & Hend).
  exists (raw1 ++ raw2), st, (o1 ++ o2). split_and!; try lia.
  - by eapply consumes_trans.
  - by rewrite run_app, Hrun1, Hrun2.
  - by rewrite Htake2, Htake1, app_assoc.
  - destruct (res_err res) as [e|]; [|by rewrite <- Hlen1].
    destruct Hend as [? Hp]. split; [done|]. intros Hpaced.
    destruct Hp as [-> ?]; [exact (consumes_paced _ _ _ Hc1 Hpaced)|].
    split; [|done]. by destruct Hc1 as (_ & -> & _).
Qed.

Lemma consumes_refl r : consumes r [] r.
Proof. split; [done|apply later_of_refl]. Qed.

Lemma call_ok_exit p n r :
  n ≤ length p → n = length p ∨ (Buffered r = 0 ∧ 0 < n) →
  call_ok p n r (mkResult n None p (mkTelnetReader r)).
Proof.
  intros Hn Hexit. exists [], Idle, []. simpl. rewrite app_nil_r.
  split_and!; auto using consumes_refl.
Qed.

Lemma Read_loop_spec fuel p n r res :
  n ≤ length p → Read_loop fuel p n r = Some res → call_ok p n r res.
Proof.
  revert p n r res.
  induction fuel as [|fuel IH]; intros p n r res Hn; simpl; [done|].
  destruct (decide (n < length p)) as [Hlt|Hge]; cycle 1.
  { intros [= <-]. apply call_ok_exit; [done|]. left. lia. }
  destruct (round fuel p n r) as [out|] eqn:Hround; [|done].
  apply round_spec in Hround; [|done].
  destruct out as [res'|p' n' r'|p' n' r']; simpl in Hround.
  - intros [= <-].
    destruct Hround as (Hresn & Hresp & e & raw & st & He & Hc & Hrun & Hbuf & Hp).
    exists raw, st, []. rewrite Hresn, Hresp, He, app_nil_r.
    split_and!; try done; try lia. unfold Buffered. by rewrite Hbuf.
  - intros Hrec. eapply advanced_call_ok; [done|].
    apply IH; [|done]. destruct Hround as (raw & o & Hadv). lia.
  - intros [= <-]. destruct Hround as (Hadv & Hbuf & Hpos).
    eapply advanced_call_ok; [done|].
    apply call_ok_exit; [|by right].
    destruct Hadv as (raw & o & Hadv). lia.
Qed.

Lemma Read_loop_total fuel p n r :
  length (unread r) < fuel → is_Some (Read_loop fuel p n r).
Proof.
  revert p n r. induction fuel as [|fuel IH]; intros p n r Hlen; simpl; [lia|].
  destruct (decide (n < length p)) as [Hlt|Hge]; [|done].
  destruct (round_total fuel p n r) as [out Hround]; [lia|].
  rewrite Hround. apply round_spec in Hround; [|done].
  destruct out as [res'|p' n' r'|p' n' r']; [done| |done].
  apply IH. destruct Hround as (raw & o & Hc & Hraw & _).
  apply consumes_length in Hc. destruct raw; [done|]. simpl in Hc. lia.
Qed.

(** ** [Read] *)

(** [Read] returns, whatever the reader and the buffer. *)
Lemma Read_total p t : is_Some (Read p t).
Proof. apply Read_loop_total. simpl. lia. Qed.

Lemma Read_spec p t res :
  Read p t = Some res → call_ok p 0 (reader t) res.
Proof. apply Read_loop_spec. lia. Qed.

(** The bytes of one call are what the decoder emits on the raw bytes the
    call took. *)
Lemma Read_emitted p t res :
  Read p t = Some res →
  ∃ raw st,
    consumes (reader t) raw (reader (res_t res))
    ∧ run Idle raw = (st, emitted res)
    ∧ length (emitted res) = res_n res
    ∧ (res_err res = None → st = Idle).
Proof.
  intros H. apply Read_spec in H.
  destruct H as (raw & st & o & Hc & Hrun & Htake & Hlen & _ & Hn & Hend).
  exists raw, st. unfold emitted. rewrite Htake. simpl. split_and!; try done.
  - rewrite take_0 in Htake. simpl in Htake. rewrite <- Htake.
    rewrite length_take. lia.
  - intros He. rewrite He in Hend. by destruct Hend.
Qed.

End ReadAgainstDecoder.

(** ** The pump against the decoder *)

Section Pump.

Lemma decode_app_Idle raw rest o :
  run Idle raw = (Idle, o) → decode (raw ++ rest) = o ++ decode rest.
Proof.
  intros Hrun. unfold decode. rewrite run_app, Hrun.
  by destruct (run Idle rest).
Qed.

Lemma decode_run raw st o : run Idle raw = (st, o) → decode raw = o.
Proof. intros Hrun. unfold decode. by rewrite Hrun. Qed.

(** Over a paced connection the pump ends with the error the connection
    closed with, having written what the decoder emits on all the bytes
    that were still to come. *)
Lemma copy_loop_spec fuel p t written out e t' :
  paced (rd (reader t)) →
  copy_loop fuel p t written = Some (out, e, t') →
  out = written ++ decode (unread (reader t))
  ∧ e = closing (rd (reader t))
  ∧ unread (reader t') = []
  ∧ outbound (rd (reader t')) = outbound (rd (reader t)).
Proof.
  revert p t written.
  induction fuel as [|fuel IH]; intros p t written Hpaced; simpl; [done|].
  destruct (Read p t) as [res|] eqn:Hread; [|done].
  pose proof (Read_emitted _ _ _ Hread) as (raw & st & Hc & Hrun & _ & Hidle).
  apply Read_spec in Hread.
  destruct Hread as (raw' & st' & o' & _ & _ & _ & _ & _ & _ & Hend).
  pose proof Hc as (Hun & Hcl & Hout & _).
  destruct (res_err res) as [e0|].
  - intros [= <- <- <-]. destruct Hend as [_ Hp].
    destruct (Hp Hpaced) as [-> Hnil]. rewrite Hun, Hnil, app_nil_r.
    by rewrite (decode_run _ _ _ Hrun).
  - intros Hrec. apply IH in Hrec; [|exact (consumes_paced _ _ _ Hc Hpaced)].
    destruct Hrec as (-> & -> & ? & ->). rewrite Hidle in Hrun by done.
    rewrite Hun, (decode_app_Idle _ _ _ Hrun), app_assoc. done.
Qed.

Lemma Read_progress p t res :
  0 < length p → Read p t = Some res → res_err res = None →
  0 < res_n res
  ∧ length (unread (reader (res_t res))) < length (unread (reader t))
  ∧ length (res_p res) = length p.
Proof.
  intros Hp Hread Herr.
  pose proof (Read_emitted _ _ _ Hread) as (raw & st & Hc & Hrun & Hlen & _).
  apply Read_spec in Hread.
  destruct Hread as (raw' & st' & o' & _ & _ & _ & Hlenp & _ & _ & Hend).
  rewrite Herr in Hend. destruct Hend as [_ Hexit].
  assert (Hn : 0 < res_n res) by (destruct Hexit; lia).
  split_and!; [done| |done].
  apply consumes_length in Hc. destruct raw as [|b raw]; simpl in Hc; [|lia].
  simpl in Hrun. injection Hrun as _ Hnil. rewrite <- Hnil in Hlen.
  simpl in Hlen. lia.
Qed.

Lemma copy_loop_total fuel p t written :
  0 < length p → length (unread (reader t)) < fuel →
  is_Some (copy_loop fuel p t written).
Proof.
  revert p t written.
  induction fuel as [|fuel IH]; intros p t written Hp Hlen; simpl; [lia|].
  destruct (Read_total p t) as [res Hread]. rewrite Hread.
  destruct (res_err res) as [e|] eqn:Herr; [done|].
  destruct (Read_progress _ _ _ Hp Hread Herr) as (_ & Hshort & Hlenp).
  apply IH; lia.
Qed.

(** The whole output of the filter from a reader on. *)
Lemma Copy_from p t :
  0 < length p → paced (rd (reader t)) →
  ∃ t', Copy p t
        = Some (decode (unread (reader t)), closing (rd (reader t)), t')
        ∧ outbound (rd (reader t')) = outbound (rd (reader t)).
Proof.
  intros Hp Hpaced. unfold Copy.
  destruct (copy_loop_total (1 + length (unread (reader t))) p t [])
    as [[[out err] t'] Hcopy]; [done|lia|].
  rewrite Hcopy. apply copy_loop_spec in Hcopy; [|done].
  destruct Hcopy as (-> & -> & _ & Hout). by exists t'.
Qed.

(** The whole output of the filter over a connection. *)
Lemma Copy_decodes p c :
  0 < length p → paced c →
  ∃ t', Copy p (NewTelnetReader c)
        = Some (decode (concat (inbound c)), closing c, t')
        ∧ outbound (rd (reader t')) = outbound c.
Proof. intros Hp Hpaced. exact (Copy_from p (NewTelnetReader c) Hp Hpaced). Qed.

Lemma run_cut_short whole out partial :
  run Idle whole = (Idle, out) → partial = [] ∨ incomplete partial →
  ∃ st, run Idle (whole ++ partial) = (st, out).
Proof.
  intros Hwhole Hpartial. rewrite run_app, Hwhole.
  destruct Hpartial as [->|Hinc].
  - exists Idle. simpl. by rewrite app_nil_r.
  - destruct (run_incomplete _ Hinc) as (st & _ & ->).
    exists st. by rewrite app_nil_r.
Qed.

End Pump.

(** ** Properties of the filter *)

Section Filter.

Variable e : error.
Variable sent : list byte.

Lemma Copy_delivering p bursts :
  0 < length p → empties bursts < maxConsecutiveEmptyReads →
  ∃ t', Copy p (NewTelnetReader (delivering e sent bursts))
        = Some (decode (concat bursts), e, t').
Proof.
  intros Hp Hpaced.
  destruct (Copy_decodes p (delivering e sent bursts) Hp Hpaced) as (t' & H & _).
  by exists t'.
Qed.

Lemma single_burst_paced raw : empties [raw] < maxConsecutiveEmptyReads.
Proof. unfold maxConsecutiveEmptyReads. destruct raw; simpl; lia. Qed.

Lemma concat_single (raw : list byte) : concat [raw] = raw.
Proof. simpl. apply app_nil_r. Qed.

Lemma run_negotiation cmd opt :
  is_negotiation cmd → run Idle [IAC; cmd; opt] = (Idle, []).
Proof.
  intros Hcmd. rewrite run_command. simpl.
  destruct (decide (cmd = IAC)) as [->|_].
  { unfold is_negotiation in Hcmd. by destruct Hcmd as [?|[?|[?|?]]]. }
  by destruct (decide (is_negotiation cmd)).
Qed.

Lemma run_subnegotiation body :
  sb_body body → run Idle (IAC :: SB :: body ++ [IAC; SE]) = (Idle, []).
Proof.
  intros Hbody. rewrite run_command. simpl.
  by rewrite run_app, run_sb_body.
Qed.

(** C1: a byte stream without any IAC byte comes out of the filter as it
    went in: the concatenated output of [Read] over the whole stream is the
    input, byte for byte, however the stream arrives. *)
Theorem C1_passthrough (bursts : list (list byte)) (p : list byte) :
  plain (concat bursts) →
  empties bursts < maxConsecutiveEmptyReads →
  0 < length p →
  ∃ t', Copy p (NewTelnetReader (delivering e sent bursts))
        = Some (concat bursts, e, t').
Proof.
  intros Hplain Hpaced Hp.
  destruct (Copy_delivering p bursts Hp Hpaced) as (t' & H).
  exists t'. by rewrite H, decode_plain.
Qed.

(** C2: the concatenated output of [Read] does not depend on how the byte
    sequence is split into the chunks the source delivers: it is the output
    obtained when the whole sequence arrives as one chunk. *)
Theorem C2_split_reads (raw : list byte) (bursts : list (list byte))
    (p p' : list byte) :
  concat bursts = raw →
  empties bursts < maxConsecutiveEmptyReads →
  0 < length p → 0 < length p' →
  ∃ out t1 t2,
    Copy p (NewTelnetReader (delivering e sent bursts)) = Some (out, e, t1)
    ∧ Copy p' (NewTelnetReader (delivering e sent [raw])) = Some (out, e, t2).
Proof.
  intros Hcat Hpaced Hp Hp'.
  destruct (Copy_delivering p bursts Hp Hpaced) as (t1 & H1).
  destruct (Copy_delivering p' [raw] Hp' (single_burst_paced raw)) as (t2 & H2).
  exists (decode raw), t1, t2. rewrite H1, H2, concat_single, Hcat. done.
Qed.

(** C6: the input IAC DO opt X decodes to the one byte X, whatever the
    option byte; the three bytes IAC, DO, opt alone give no output; and so
    for DONT, WILL and WONT in the place of DO. *)
Theorem C6_negotiation_stripped (cmd opt X : byte)
    (bursts bursts3 : list (list byte)) (p : list byte) :
  is_negotiation cmd → X ≠ IAC →
  concat bursts = [IAC; cmd; opt; X] →
  concat bursts3 = [IAC; cmd; opt] →
  empties bursts < maxConsecutiveEmptyReads →
  empties bursts3 < maxConsecutiveEmptyReads →
  0 < length p →
  (∃ t', Copy p (NewTelnetReader (delivering e sent bursts)) = Some ([X], e, t'))
  ∧ (∃ t', Copy p (NewTelnetReader (delivering e sent bursts3)) = Some ([], e, t')).
Proof.
  intros Hcmd HX Hcat Hcat3 Hpaced Hpaced3 Hp.
  destruct (Copy_delivering p bursts Hp Hpaced) as (t1 & H1).
  destruct (Copy_delivering p bursts3 Hp Hpaced3) as (t2 & H2).
  pose proof (run_negotiation cmd opt Hcmd) as Hrun.
  split.
  - exists t1. rewrite H1, Hcat.
    change [IAC; cmd; opt; X] with ([IAC; cmd; opt] ++ [X]).
    rewrite (decode_app_Idle _ _ _ Hrun), decode_plain; [done|].
    by repeat constructor.
  - exists t2. by rewrite H2, Hcat3, (decode_run _ _ _ Hrun).
Qed.

(** The byte after the option code is read as the start of the next item:
    when it is IAC it opens a command and is not output. *)
Lemma negotiation_then_IAC (cmd opt : byte) (p : list byte) :
  is_negotiation cmd → 0 < length p →
  ∃ t', Copy p (NewTelnetReader (delivering e sent [[IAC; cmd; opt; IAC]]))
        = Some ([], e, t').
Proof.
  intros Hcmd Hp.
  destruct (Copy_delivering p [[IAC; cmd; opt; IAC]] Hp
              (single_burst_paced _)) as (t' & H).
  exists t'. rewrite H, concat_single.
  change [IAC; cmd; opt; IAC] with ([IAC; cmd; opt] ++ [IAC]).
  by rewrite (decode_app_Idle _ _ _ (run_negotiation cmd opt Hcmd)).
Qed.

(** C7: in plain data the two bytes IAC IAC give the one output byte 255,
    and the bytes after them are decoded as plain data again. *)
Theorem C7_escaped_IAC (pre rest : list byte)
    (bursts : list (list byte)) (p : list byte) :
  plain pre →
  concat bursts = pre ++ IAC :: IAC :: rest →
  empties bursts < maxConsecutiveEmptyReads →
  0 < length p →
  ∃ out t1 t2,
    Copy p (NewTelnetReader (delivering e sent [rest])) = Some (out, e, t2)
    ∧ Copy p (NewTelnetReader (delivering e sent bursts))
      = Some (pre ++ IAC :: out, e, t1).
Proof.
  intros Hpre Hcat Hpaced Hp.
  destruct (Copy_delivering p bursts Hp Hpaced) as (t1 & H1).
  destruct (Copy_delivering p [rest] Hp (single_burst_paced rest)) as (t2 & H2).
  exists (decode rest), t1, t2. rewrite H1, H2, concat_single, Hcat.
  split; [done|]. do 3 f_equal.
  rewrite (decode_app_Idle _ _ _ (run_plain _ Hpre)). f_equal.
  change (IAC :: IAC :: rest) with ([IAC; IAC] ++ rest).
  by rewrite (decode_app_Idle _ _ [IAC]).
Qed.

End Filter.

(** ** Single rounds and single calls *)

Section Calls.

(** Over a paced connection a read delivers the first byte to come. *)
Lemma ReadByte_next r b rest :
  paced (rd r) → unread r = b :: rest →
  ∃ r', ReadByte r = (inr b, r') ∧ unread r' = rest ∧ later_of r r'.
Proof.
  intros Hpaced Hun.
  destruct (ReadByte r) as [[err|b'] r'] eqn:Hread.
  - apply ReadByte_error in Hread. destruct Hread as (_ & _ & _ & Hp).
    destruct (Hp Hpaced) as [_ Hnil]. by rewrite Hnil in Hun.
  - apply ReadByte_byte in Hread. destruct Hread as [Hun' Hlater].
    rewrite Hun in Hun'. injection Hun' as -> ->. by exists r'.
Qed.

(** C4 (amended): a negotiation sequence, IAC then DO, DONT, WILL or WONT
    then the option code, is three bytes; one round of the loop consumes
    exactly these three, leaves [p] and [n] as they were, and writes
    nothing to the peer. *)
Theorem C4_negotiation_three_bytes (fuel : nat) (p : list byte) (n : nat)
    (r : Reader) (cmd opt : byte) (rest : list byte) :
  is_negotiation cmd →
  paced (rd r) →
  unread r = IAC :: cmd :: opt :: rest →
  ∃ r', round fuel p n r = Some (endOfRound p n r')
        ∧ unread r' = rest
        ∧ length (unread r) = 3 + length (unread r')
        ∧ outbound (rd r') = outbound (rd r).
Proof.
  intros Hcmd Hpaced Hun.
  destruct (ReadByte_next _ _ _ Hpaced Hun) as (r1 & H1 & Hun1 & L1).
  pose proof (later_of_paced _ _ L1 Hpaced) as Hpaced1.
  destruct (ReadByte_next _ _ _ Hpaced1 Hun1) as (r2 & H2 & Hun2 & L2).
  pose proof (later_of_paced _ _ L2 Hpaced1) as Hpaced2.
  destruct (ReadByte_next _ _ _ Hpaced2 Hun2) as (r3 & H3 & Hun3 & L3).
  exists r3. unfold round. rewrite H1.
  destruct (decide (IAC = IAC)); [|done]. rewrite H2.
  destruct (decide (cmd = IAC)) as [->|_].
  { unfold is_negotiation in Hcmd. by destruct Hcmd as [?|[?|[?|?]]]. }
  destruct (decide (cmd = DO ∨ cmd = DONT ∨ cmd = WILL ∨ cmd = WONT));
    [|done].
  rewrite H3. split_and!; [done..| |].
  - rewrite Hun, Hun3. simpl. lia.
  - destruct L1 as (_ & ? & _), L2 as (_ & ? & _), L3 as (_ & ? & _).
    congruence.
Qed.

(** The rounds that go on without the test of lines 221-223 although it
    would end the call are those of an IAC command that is none of IAC,
    DO, DONT, WILL, WONT and SB. *)
Lemma Continue_past_flush fuel p n r p' n' r' :
  round fuel p n r = Some (Continue p' n' r') →
  Buffered r' = 0 → 0 < n' →
  ∃ cmd, consumes r [IAC; cmd] r'
         ∧ cmd ≠ IAC ∧ ¬ is_negotiation cmd ∧ cmd ≠ SB
         ∧ p' = p ∧ n' = n.
Proof.
  intros Hround Hbuf Hpos.
  assert (Hend : ∀ q m s, endOfRound q m s ≠ Continue p' n' r').
  { intros q m s. unfold endOfRound.
    destruct (decide (Buffered s = 0 ∧ 0 < m)) as [?|Hno]; [done|].
    intros [= -> -> ->]. by apply Hno. }
  revert Hround. unfold round.
  destruct (ReadByte r) as [[err|b] r1] eqn:H1; [done|].
  destruct (decide (b = IAC)) as [->|_]; [|intros [= H]; by apply Hend in H].
  destruct (ReadByte r1) as [[err|cmd] r2] eqn:H2; [done|].
  destruct (decide (cmd = IAC)); [intros [= H]; by apply Hend in H|].
  destruct (decide (cmd = DO ∨ cmd = DONT ∨ cmd = WILL ∨ cmd = WONT)).
  { destruct (ReadByte r2) as [[err|opt] r3]; [done|].
    intros [= H]. by apply Hend in H. }
  destruct (decide (cmd = SB)).
  { destruct (skipSubnegotiation fuel r2) as [[[err|] r3]|]; [done| |done].
    intros [= H]. by apply Hend in H. }
  intros [= <- <- <-]. exists cmd. split_and!; try done.
  apply consumes_byte in H1, H2.
  exact (consumes_trans _ _ _ _ _ H1 H2).
Qed.

(** C3 (the code at the input where it departs from the claim): the bytes
    "A", IAC, NOP arrive in one burst, "B" in a later one.  The round of
    IAC NOP goes on although nothing is buffered and one byte is emitted;
    the call waits for the next burst and returns "AB".  With IAC DO 1 in
    the place of IAC NOP the same call returns "A" alone. *)
Lemma C3_unknown_command_holds_output :
  let later := mkConn [[x42]] EOF [] in
  round 0 [x41; x00; x00; x00] 1 (mkReader [IAC; xf1] later)
    = Some (Continue [x41; x00; x00; x00] 1 (mkReader [] later))
  ∧ Read [x00; x00; x00; x00]
      (NewTelnetReader (mkConn [[x41; IAC; xf1]; [x42]] EOF []))
    = Some (mkResult 2 None [x41; x42; x00; x00]
              (mkTelnetReader (mkReader [] (mkConn [] EOF []))))
  ∧ Read [x00; x00; x00; x00]
      (NewTelnetReader (mkConn [[x41; IAC; DO; x01]; [x42]] EOF []))
    = Some (mkResult 1 None [x41; x00; x00; x00]
              (mkTelnetReader (mkReader [] later))).
Proof. by vm_compute. Qed.

(** C8 (amended): a call with a destination of at least one byte returns,
    and returns no bytes only together with an error, which over a paced
    connection is the error the source closed with; without an error it
    returns at least one byte. *)
Theorem C8_zero_bytes_only_with_error (p : list byte) (t : TelnetReader) :
  0 < length p →
  ∃ res, Read p t = Some res
         ∧ (res_err res = None → 0 < res_n res)
         ∧ (res_n res = 0 → ∃ err, res_err res = Some err)
         ∧ (paced (rd (reader t)) → res_n res = 0 →
            res_err res = Some (closing (rd (reader t)))).
Proof.
  intros Hp. destruct (Read_total p t) as [res Hread]. exists res.
  split; [done|].
  assert (Hpos : res_err res = None → 0 < res_n res).
  { intros Herr. by destruct (Read_progress _ _ _ Hp Hread Herr). }
  assert (Hzero : res_n res = 0 → ∃ err, res_err res = Some err).
  { intros Hzero. destruct (res_err res) as [err|]; [by exists err|].
    specialize (Hpos eq_refl). lia. }
  split_and!; [done..|].
  intros Hpaced Hn. destruct (Hzero Hn) as [err Herr]. rewrite Herr.
  apply Read_spec in Hread.
  destruct Hread as (raw & st & o & _ & _ & _ & _ & _ & _ & Hend).
  rewrite Herr in Hend. destruct Hend as [_ Hend].
  by destruct (Hend Hpaced) as [-> _].
Qed.

(** C10: a call that returns without an error has taken whole sequences
    only: on the bytes it consumed the decoder goes from [Idle] back to
    [Idle], emitting the bytes of the call.  A [TelnetReader] is its
    [reader] and nothing else. *)
Theorem C10_idle_between_calls (p : list byte) (t : TelnetReader)
    (res : ReadResult) :
  Read p t = Some res →
  res_err res = None →
  (∃ raw, unread (reader t) = raw ++ unread (reader (res_t res))
          ∧ run Idle raw = (Idle, emitted res))
  ∧ res_t res = mkTelnetReader (reader (res_t res)).
Proof.
  intros Hread Herr.
  destruct (Read_emitted _ _ _ Hread) as (raw & st & [Hun _] & Hrun & _ & Hidle).
  split; [|destruct (res_t res); reflexivity].
  exists raw. split; [done|]. by rewrite (Hidle Herr) in Hrun.
Qed.

End Calls.

(** ** Subnegotiation blocks *)

Section Subnegotiation.

(** The inner loop on a block: it reads through the body, pairs of IAC
    and a byte other than SE included, and breaks right after IAC SE. *)
Lemma skipSubnegotiation_block body :
  sb_body body →
  ∀ fuel r rest,
    paced (rd r) → unread r = body ++ IAC :: SE :: rest →
    length body < fuel →
    ∃ r', skipSubnegotiation fuel r = Some (None, r')
          ∧ unread r' = rest ∧ later_of r r'.
Proof.
  induction 1 as [|b body Hb _ IH|x body Hx _ IH];
    intros fuel r rest Hpaced Hun Hfuel;
    (destruct fuel as [|fuel]; [simpl in Hfuel; lia|]);
    cbn [skipSubnegotiation]; simpl in Hun, Hfuel.
  - destruct (ReadByte_next _ _ _ Hpaced Hun) as (r1 & -> & Hun1 & L1).
    pose proof (later_of_paced _ _ L1 Hpaced) as Hpaced1.
    destruct (ReadByte_next _ _ _ Hpaced1 Hun1) as (r2 & -> & Hun2 & L2).
    destruct (decide (IAC = IAC)); [|done].
    destruct (decide (SE = SE)); [|done].
    exists r2. split_and!; [done..|]. by eapply later_of_trans.
  - destruct (ReadByte_next _ _ _ Hpaced Hun) as (r1 & -> & Hun1 & L1).
    pose proof (later_of_paced _ _ L1 Hpaced) as Hpaced1.
    destruct (decide (b = IAC)); [done|].
    destruct (IH fuel r1 rest Hpaced1 Hun1) as (r' & -> & Hun' & L'); [lia|].
    exists r'. split_and!; [done..|]. by eapply later_of_trans.
  - destruct (ReadByte_next _ _ _ Hpaced Hun) as (r1 & -> & Hun1 & L1).
    pose proof (later_of_paced _ _ L1 Hpaced) as Hpaced1.
    destruct (ReadByte_next _ _ _ Hpaced1 Hun1) as (r2 & -> & Hun2 & L2).
    pose proof (later_of_paced _ _ L2 Hpaced1) as Hpaced2.
    destruct (decide (IAC = IAC)); [|done].
    destruct (decide (x = SE)); [done|].
    destruct (IH fuel r2 rest Hpaced2 Hun2) as (r' & -> & Hun' & L'); [lia|].
    exists r'. split_and!; [done..|].
    eapply later_of_trans; [|done]. by eapply later_of_trans.
Qed.

(** C5: after IAC SB the filter consumes and discards every byte up to
    and with the first pair IAC SE, emitting nothing; an IAC followed by a
    byte other than SE goes with that byte and does not end the block; and
    after IAC SE the next byte is decoded as plain data.
    In one round of the loop: the round that meets the block reads exactly
    the block, leaves [p] and [n] as they were and the byte after IAC SE
    next to be read.  For the whole output: after plain data [pre] the
    output is [pre] followed by the output of a reader on [rest], which is
    [rest] itself when [rest] is plain. *)
Theorem C5_subnegotiation (e : error) (sent : list byte)
    (pre body rest : list byte) (bursts : list (list byte)) (p : list byte)
    (fuel : nat) (q : list byte) (n : nat) (r : Reader) :
  sb_body body →
  plain pre →
  concat bursts = pre ++ IAC :: SB :: body ++ IAC :: SE :: rest →
  empties bursts < maxConsecutiveEmptyReads →
  0 < length p →
  paced (rd r) →
  unread r = IAC :: SB :: body ++ IAC :: SE :: rest →
  length body < fuel →
  (∃ r', round fuel q n r = Some (endOfRound q n r')
         ∧ unread r' = rest
         ∧ length (unread r) = 4 + length body + length (unread r')
         ∧ outbound (rd r') = outbound (rd r))
  ∧ (∃ out t1 t2,
       Copy p (NewTelnetReader (delivering e sent [rest])) = Some (out, e, t2)
       ∧ Copy p (NewTelnetReader (delivering e sent bursts))
         = Some (pre ++ out, e, t1)
       ∧ (plain rest → out = rest)).
Proof.
  intros Hbody Hpre Hcat Hpaced Hp Hpacedr Hun Hfuel. split.
  - destruct (ReadByte_next _ _ _ Hpacedr Hun) as (r1 & H1 & Hun1 & L1).
    pose proof (later_of_paced _ _ L1 Hpacedr) as Hpaced1.
    destruct (ReadByte_next _ _ _ Hpaced1 Hun1) as (r2 & H2 & Hun2 & L2).
    pose proof (later_of_paced _ _ L2 Hpaced1) as Hpaced2.
    destruct (skipSubnegotiation_block body Hbody fuel r2 rest Hpaced2 Hun2
                Hfuel) as (r3 & H3 & Hun3 & L3).
    exists r3. unfold round. rewrite H1.
    destruct (decide (IAC = IAC)); [|done]. rewrite H2.
    destruct (decide (SB = IAC)); [done|].
    destruct (decide (SB = DO ∨ SB = DONT ∨ SB = WILL ∨ SB = WONT))
      as [[?|[?|[?|?]]]|_]; [done..|].
    destruct (decide (SB = SB)); [|done]. rewrite H3.
    split_and!; [done..| |].
    + rewrite Hun, Hun3. simpl. rewrite length_app. simpl. lia.
    + destruct L1 as (_ & ? & _), L2 as (_ & ? & _), L3 as (_ & ? & _).
      congruence.
  - destruct (Copy_delivering e sent p bursts Hp Hpaced) as (t1 & H1).
    destruct (Copy_delivering e sent p [rest] Hp (single_burst_paced rest))
      as (t2 & H2).
    exists (decode rest), t1, t2. rewrite H1, H2, concat_single, Hcat.
    split_and!; [done| |apply decode_plain].
    do 3 f_equal.
    rewrite (decode_app_Idle _ _ _ (run_plain _ Hpre)). f_equal.
    replace (IAC :: SB :: body ++ IAC :: SE :: rest)
      with ((IAC :: SB :: body ++ [IAC; SE]) ++ rest)
      by (simpl; by rewrite <- app_assoc).
    by rewrite (decode_app_Idle _ _ [] (run_subnegotiation body Hbody)).
Qed.

End Subnegotiation.

(** ** Failing reads *)

Section Failures.

(** C9: the source fails after [whole], a run of plain data and complete
    sequences on which the decoder emits [out], followed or not by a
    control sequence that is cut off.  The pump ends with the error of the
    source, having written [out] and nothing for the cut-off sequence; and
    a call of [Read] that starts there and returns an error returns the
    error of the source together with [out]. *)
Theorem C9_read_failure_propagated (p : list byte) (t : TelnetReader)
    (whole out partial : list byte) :
  run Idle whole = (Idle, out) →
  partial = [] ∨ incomplete partial →
  unread (reader t) = whole ++ partial →
  paced (rd (reader t)) →
  0 < length p →
  (∃ t', Copy p t = Some (out, closing (rd (reader t)), t'))
  ∧ (∀ res err,
       Read p t = Some res → res_err res = Some err →
       err = closing (rd (reader t)) ∧ res_n res = length out
       ∧ emitted res = out).
Proof.
  intros Hwhole Hpartial Hun Hpaced Hp.
  destruct (run_cut_short _ _ _ Hwhole Hpartial) as (st & Hrun).
  split.
  - destruct (Copy_from p t Hp Hpaced) as (t' & Hcopy & _).
    exists t'. by rewrite Hcopy, Hun, (decode_run _ _ _ Hrun).
  - intros res err Hread Herr.
    pose proof (Read_emitted _ _ _ Hread)
      as (raw & st' & [Hraw _] & Hrun' & Hlen & _).
    apply Read_spec in Hread.
    destruct Hread as (raw' & st'' & o & _ & _ & _ & _ & _ & _ & Hend).
    rewrite Herr in Hend. destruct Hend as [_ Hend].
    destruct (Hend Hpaced) as [-> Hnil].
    rewrite Hnil, app_nil_r, Hun in Hraw. subst raw.
    rewrite Hrun in Hrun'. injection Hrun' as _ Hem.
    rewrite <- Hem in Hlen. by split_and!.
Qed.

End Failures.

(** ** The claims at concrete inputs *)

Section Instances.

(** A clear-screen escape sequence and a letter, in two bursts. *)
Lemma C1_passthrough_witness :
  ∃ t', Copy [x00; x00; x00]
          (NewTelnetReader
             (delivering EOF [] [[x1b; x5b; x32]; [x4a; x41]]))
        = Some ([x1b; x5b; x32; x4a; x41], EOF, t').
Proof.
  apply (C1_passthrough EOF [] [[x1b; x5b; x32]; [x4a; x41]] [x00; x00; x00]).
  - by repeat constructor.
  - unfold maxConsecutiveEmptyReads. simpl. lia.
  - simpl. lia.
Defined.

(** "Hello", IAC WILL 1, " World", IAC IAC, "!" cut inside both commands. *)
Lemma C2_split_reads_witness :
  ∃ out t1 t2,
    Copy [x00; x00; x00; x00]
      (NewTelnetReader
         (delivering EOF []
            [[x48; x65; x6c; x6c; x6f; xff]; [xfb]; [x01; x20; x57; x6f; x72];
             [x6c; x64; xff]; [xff; x21]]))
    = Some (out, EOF, t1)
    ∧ Copy (replicate 16 x00)
        (NewTelnetReader
           (delivering EOF []
              [[x48; x65; x6c; x6c; x6f; xff; xfb; x01; x20; x57; x6f; x72;
                x6c; x64; xff; xff; x21]]))
      = Some (out, EOF, t2).
Proof.
  apply (C2_split_reads EOF []
           [x48; x65; x6c; x6c; x6f; xff; xfb; x01; x20; x57; x6f; x72;
            x6c; x64; xff; xff; x21]).
  - reflexivity.
  - unfold maxConsecutiveEmptyReads. simpl. lia.
  - simpl. lia.
  - simpl. lia.
Defined.

(** C4 (as stated): the sequence is not four bytes.  Of the buffered bytes
    IAC DO 1 "A" the round of the negotiation leaves "A" to be read. *)
Lemma C4_four_bytes_counterexample :
  ¬ (∀ (fuel : nat) (p : list byte) (n : nat) (r : Reader)
       (cmd opt : byte) (rest : list byte),
       is_negotiation cmd → paced (rd r) →
       unread r = IAC :: cmd :: opt :: rest →
       ∃ r', round fuel p n r = Some (endOfRound p n r')
             ∧ length (unread r) = 4 + length (unread r')).
Proof.
  intros Hclaim.
  destruct (Hclaim 0 [x00] 0 (mkReader [IAC; DO; x01; x41] (mkConn [] EOF []))
              DO x01 [x41]) as (r' & Hround & Hlen).
  - by left.
  - unfold paced, maxConsecutiveEmptyReads. simpl. lia.
  - reflexivity.
  - assert (Hcode : round 0 [x00] 0
                       (mkReader [IAC; DO; x01; x41] (mkConn [] EOF []))
                     = Some (Continue [x00] 0
                               (mkReader [x41] (mkConn [] EOF []))))
      by (by vm_compute).
    rewrite Hcode in Hround. unfold endOfRound in Hround.
    destruct (decide (Buffered r' = 0 ∧ 0 < 0)) as [[_ ?]|_]; [lia|].
    injection Hround as <-. simpl in Hlen. lia.
Qed.

Lemma C4_negotiation_three_bytes_witness :
  ∃ r', round 0 [x00] 0 (mkReader [IAC; DO; x01] (mkConn [[x41]] EOF []))
        = Some (endOfRound [x00] 0 r')
        ∧ unread r' = [x41]
        ∧ length (unread (mkReader [IAC; DO; x01] (mkConn [[x41]] EOF [])))
          = 3 + length (unread r')
        ∧ outbound (rd r') = [].
Proof.
  apply (C4_negotiation_three_bytes 0 [x00] 0
           (mkReader [IAC; DO; x01] (mkConn [[x41]] EOF [])) DO x01 [x41]).
  - by left.
  - unfold paced, maxConsecutiveEmptyReads. simpl. lia.
  - reflexivity.
Defined.

(** The block of the specification, IAC SB 24 0 IAC SE, then "Y": one
    round takes the six bytes of the block, and the input decodes to "Y"
    only, here with the block cut in three. *)
Lemma C5_subnegotiation_witness :
  (∃ r', round 6 [x00; x00] 0
           (mkReader [xff; xfa; x18] (mkConn [[x00; xff]; [xf0; x59]] EOF []))
         = Some (endOfRound [x00; x00] 0 r')
         ∧ unread r' = [x59])
  ∧ (∃ t1, Copy [x00; x00]
             (NewTelnetReader
                (delivering EOF [] [[xff; xfa; x18]; [x00; xff]; [xf0; x59]]))
           = Some ([x59], EOF, t1)).
Proof.
  destruct (C5_subnegotiation EOF [] [] [x18; x00] [x59]
              [[xff; xfa; x18]; [x00; xff]; [xf0; x59]] [x00; x00]
              6 [x00; x00] 0
              (mkReader [xff; xfa; x18]
                 (mkConn [[x00; xff]; [xf0; x59]] EOF [])))
    as [(r' & Hround & Hun & _) (out & t1 & t2 & _ & Hcopy & Hout)].
  - by repeat constructor.
  - constructor.
  - reflexivity.
  - unfold maxConsecutiveEmptyReads. simpl. lia.
  - simpl. lia.
  - unfold paced, maxConsecutiveEmptyReads. simpl. lia.
  - reflexivity.
  - simpl. lia.
  - split; [by exists r'|]. exists t1.
    rewrite Hout in Hcopy by (by repeat constructor). exact Hcopy.
Defined.

Lemma C6_negotiation_stripped_witness :
  (∃ t', Copy [x00; x00]
           (NewTelnetReader (delivering EOF [] [[xff; xfd]; [x01; x41]]))
         = Some ([x41], EOF, t'))
  ∧ (∃ t', Copy [x00; x00]
             (NewTelnetReader (delivering EOF [] [[xff; xfd; x01]]))
           = Some ([], EOF, t')).
Proof.
  apply (C6_negotiation_stripped EOF [] DO x01 x41).
  - by left.
  - done.
  - reflexivity.
  - reflexivity.
  - unfold maxConsecutiveEmptyReads. simpl. lia.
  - unfold maxConsecutiveEmptyReads. simpl. lia.
  - simpl. lia.
Defined.

Lemma C7_escaped_IAC_witness :
  ∃ out t1 t2,
    Copy [x00; x00] (NewTelnetReader (delivering EOF [] [[x21]]))
    = Some (out, EOF, t2)
    ∧ Copy [x00; x00]
        (NewTelnetReader (delivering EOF [] [[x64; xff]; [xff; x21]]))
      = Some ([x64] ++ IAC :: out, EOF, t1).
Proof.
  apply (C7_escaped_IAC EOF [] [x64] [x21]).
  - by repeat constructor.
  - reflexivity.
  - unfold maxConsecutiveEmptyReads. simpl. lia.
  - simpl. lia.
Defined.

(** C8 (as stated): with an empty destination the call returns no bytes
    and no error, while a byte is there to be read. *)
Lemma C8_empty_destination_counterexample :
  ∃ res, Read [] (NewTelnetReader (mkConn [[x41]] EOF [])) = Some res
         ∧ res_n res = 0 ∧ res_err res = None.
Proof. eexists. split; [by vm_compute|]. done. Qed.

Lemma C8_zero_bytes_only_with_error_witness :
  ∃ res, Read [x00] (NewTelnetReader (mkConn [[xff; xfd; x01]] EOF []))
         = Some res
         ∧ (res_err res = None → 0 < res_n res)
         ∧ (res_n res = 0 → ∃ err, res_err res = Some err)
         ∧ (paced (mkConn [[xff; xfd; x01]] EOF []) → res_n res = 0 →
            res_err res = Some EOF).
Proof.
  apply (C8_zero_bytes_only_with_error [x00]). simpl. lia.
Defined.

(** "H", IAC NOP, "i" and then a negotiation whose option code never
    arrives, on a connection that is reset. *)
Lemma C9_read_failure_propagated_witness :
  let t := NewTelnetReader
             (mkConn [[x48; xff; xf1; x69; xff]; [xfd]] (ErrNet 104) []) in
  (∃ t', Copy [x00; x00; x00; x00] t = Some ([x48; x69], ErrNet 104, t'))
  ∧ (∀ res err,
       Read [x00; x00; x00; x00] t = Some res → res_err res = Some err →
       err = ErrNet 104 ∧ res_n res = 2 ∧ emitted res = [x48; x69]).
Proof.
  apply (C9_read_failure_propagated [x00; x00; x00; x00]
           (NewTelnetReader
              (mkConn [[x48; xff; xf1; x69; xff]; [xfd]] (ErrNet 104) []))
           [x48; xff; xf1; x69] [x48; x69] [IAC; DO]).
  - reflexivity.
  - right. apply inc_negotiation. by left.
  - reflexivity.
  - unfold paced, maxConsecutiveEmptyReads. simpl. lia.
  - simpl. lia.
Defined.

Lemma C10_idle_between_calls_witness :
  let t := NewTelnetReader (mkConn [[x41; xff; xfa; x18]; [xff; xf0]; [x42]] EOF []) in
  let res := mkResult 1 None [x41; x00]
               (mkTelnetReader (mkReader [] (mkConn [[x42]] EOF []))) in
  (∃ raw, unread (reader t) = raw ++ unread (reader (res_t res))
          ∧ run Idle raw = (Idle, emitted res))
  ∧ res_t res = mkTelnetReader (reader (res_t res)).
Proof.
  apply (C10_idle_between_calls [x00; x00]
           (NewTelnetReader
              (mkConn [[x41; xff; xfa; x18]; [xff; xf0]; [x42]] EOF []))).
  - reflexivity.
  - reflexivity.
Defined.

End Instances.

(** ** Further properties of [Read] and of the pump *)

Section Stream.

Variable e : error.
Variable sent : list byte.

Lemma run_unrecognized cmd :
  unrecognized cmd → run Idle [IAC; cmd] = (Idle, []).
Proof.
  intros (Hiac & Hneg & Hsb). rewrite run_command. simpl.
  destruct (decide (cmd = IAC)); [done|].
  destruct (decide (is_negotiation cmd)); [done|].
  by destruct (decide (cmd = SB)).
Qed.

Lemma decode_escape data : decode (escape data) = data.
Proof.
  induction data as [|b data IH]; simpl; [done|].
  destruct (decide (b = IAC)) as [->|Hb].
  - change (IAC :: IAC :: escape data) with ([IAC; IAC] ++ escape data).
    by rewrite (decode_app_Idle _ _ [IAC]), IH.
  - change (b :: escape data) with ([b] ++ escape data).
    rewrite (decode_app_Idle _ _ [b]), IH; [done|].
    simpl. by destruct (decide (b = IAC)).
Qed.

Lemma step_emits s b s1 o1 : step s b = (s1, o1) → o1 = [] ∨ o1 = [b].
Proof.
  destruct s; simpl; repeat case_decide; intros [= <- <-]; subst; auto.
Qed.

(** The decoder only deletes bytes. *)
Lemma run_sublist s raw s' o : run s raw = (s', o) → o `sublist_of` raw.
Proof.
  revert s s' o. induction raw as [|b raw IH]; intros s s' o; simpl.
  { intros [= <- <-]. constructor. }
  destruct (step s b) as [s1 o1] eqn:Hstep.
  destruct (run s1 raw) as [s2 o2] eqn:Hrun.
  intros [= <- <-]. apply IH in Hrun.
  destruct (step_emits _ _ _ _ Hstep) as [->| ->]; simpl.
  - by apply sublist_cons.
  - by apply sublist_skip.
Qed.

(** X1: after IAC, a command byte that is none of IAC, DO, DONT, WILL,
    WONT and SB is dropped together with the IAC, nothing is output for
    the two bytes, and the bytes after them are decoded as plain data
    again. *)
Theorem X1_unrecognized_command_discarded (cmd : byte) (pre rest : list byte)
    (bursts : list (list byte)) (p : list byte) :
  unrecognized cmd →
  plain pre →
  concat bursts = pre ++ IAC :: cmd :: rest →
  empties bursts < maxConsecutiveEmptyReads →
  0 < length p →
  ∃ out t1 t2,
    Copy p (NewTelnetReader (delivering e sent [rest])) = Some (out, e, t2)
    ∧ Copy p (NewTelnetReader (delivering e sent bursts))
      = Some (pre ++ out, e, t1).
Proof.
  intros Hcmd Hpre Hcat Hpaced Hp.
  destruct (Copy_delivering e sent p bursts Hp Hpaced) as (t1 & H1).
  destruct (Copy_delivering e sent p [rest] Hp (single_burst_paced rest))
    as (t2 & H2).
  exists (decode rest), t1, t2. rewrite H1, H2, concat_single, Hcat.
  split; [done|]. do 3 f_equal.
  rewrite (decode_app_Idle _ _ _ (run_plain _ Hpre)). f_equal.
  change (IAC :: cmd :: rest) with ([IAC; cmd] ++ rest).
  by rewrite (decode_app_Idle _ _ [] (run_unrecognized cmd Hcmd)).
Qed.

(** X2: data sent with every byte 255 doubled comes out of the filter as
    the data, whatever bytes it holds and however it is delivered. *)
Theorem X2_escape_round_trip (data : list byte) (bursts : list (list byte))
    (p : list byte) :
  concat bursts = escape data →
  empties bursts < maxConsecutiveEmptyReads →
  0 < length p →
  ∃ t', Copy p (NewTelnetReader (delivering e sent bursts))
        = Some (data, e, t').
Proof.
  intros Hcat Hpaced Hp.
  destruct (Copy_delivering e sent p bursts Hp Hpaced) as (t' & H).
  exists t'. by rewrite H, Hcat, decode_escape.
Qed.

End Stream.

Section Pumping.

(** X3: what the pump writes is a subsequence of the bytes that came in:
    the filter drops bytes, it adds none and reorders none.  The pump ends
    with the error of the source. *)
Theorem X3_output_is_subsequence (p : list byte) (t : TelnetReader) :
  0 < length p →
  paced (rd (reader t)) →
  ∃ out t',
    Copy p t = Some (out, closing (rd (reader t)), t')
    ∧ out `sublist_of` unread (reader t)
    ∧ length out ≤ length (unread (reader t)).
Proof.
  intros Hp Hpaced. destruct (Copy_from p t Hp Hpaced) as (t' & Hcopy & _).
  exists (decode (unread (reader t))), t'. split; [done|].
  assert (Hsub : decode (unread (reader t)) `sublist_of` unread (reader t)).
  { unfold decode. destruct (run Idle (unread (reader t))) as [st o] eqn:Hrun.
    simpl. by eapply run_sublist. }
  split; [done|]. by apply sublist_length.
Qed.

(** X8: the output and the final error of the pump do not depend on the
    size of the destination buffer nor on what it held. *)
Theorem X8_buffer_independent (p p' : list byte) (t : TelnetReader) :
  0 < length p → 0 < length p' →
  paced (rd (reader t)) →
  ∃ out err t1 t2,
    Copy p t = Some (out, err, t1) ∧ Copy p' t = Some (out, err, t2).
Proof.
  intros Hp Hp' Hpaced.
  destruct (Copy_from p t Hp Hpaced) as (t1 & H1 & _).
  destruct (Copy_from p' t Hp' Hpaced) as (t2 & H2 & _).
  by exists (decode (unread (reader t))), (closing (rd (reader t))), t1, t2.
Qed.

(** X9: calls compose.  After a call that returned without an error, the
    pump started on the reader as the call left it writes what the pump
    started before the call writes, less the bytes the call handed out:
    across calls no byte is lost and none comes twice. *)
Theorem X9_calls_compose (p q : list byte) (t : TelnetReader)
    (res : ReadResult) :
  Read p t = Some res →
  res_err res = None →
  paced (rd (reader t)) →
  0 < length q →
  ∃ out t1 t2,
    Copy q (res_t res) = Some (out, closing (rd (reader t)), t2)
    ∧ Copy q t = Some (emitted res ++ out, closing (rd (reader t)), t1).
Proof.
  intros Hread Herr Hpaced Hq.
  destruct (Read_emitted _ _ _ Hread) as (raw & st & Hc & Hrun & _ & Hidle).
  rewrite (Hidle Herr) in Hrun.
  destruct (Copy_from q t Hq Hpaced) as (t1 & H1 & _).
  destruct (Copy_from q (res_t res) Hq (consumes_paced _ _ _ Hc Hpaced))
    as (t2 & H2 & _).
  destruct Hc as (Hun & Hcl & _).
  exists (decode (unread (reader (res_t res)))), t1, t2.
  rewrite H1, H2, Hcl, Hun, (decode_app_Idle _ _ _ Hrun). done.
Qed.

End Pumping.

Section OneCall.

(** X4: the bytes a call hands out are a subsequence of the raw bytes the
    same call took off the source; a call emits no more bytes than it
    consumed. *)
Theorem X4_emitted_from_consumed (p : list byte) (t : TelnetReader)
    (res : ReadResult) :
  Read p t = Some res →
  ∃ raw, unread (reader t) = raw ++ unread (reader (res_t res))
         ∧ emitted res `sublist_of` raw
         ∧ res_n res ≤ length raw.
Proof.
  intros Hread.
  destruct (Read_emitted _ _ _ Hread) as (raw & st & [Hun _] & Hrun & Hlen & _).
  exists raw. apply run_sublist in Hrun. split_and!; [done..|].
  rewrite <- Hlen. by apply sublist_length.
Qed.

(** X6: a call that returns without an error before [p] is full has
    emitted at least one byte and leaves nothing buffered: [Read] never
    returns short while bytes are at hand in the buffer. *)
Theorem X6_short_return_drains_buffer (p : list byte) (t : TelnetReader)
    (res : ReadResult) :
  Read p t = Some res →
  res_err res = None →
  res_n res < length p →
  Buffered (reader (res_t res)) = 0 ∧ 0 < res_n res.
Proof.
  intros Hread Herr Hshort. apply Read_spec in Hread.
  destruct Hread as (raw & st & o & _ & _ & _ & _ & _ & _ & Hend).
  rewrite Herr in Hend. destruct Hend as [_ [Hfull|Hflush]]; [lia|done].
Qed.

Lemma endOfRound_cases p n r :
  endOfRound p n r = Continue p n r ∨ endOfRound p n r = Break p n r.
Proof. unfold endOfRound. destruct (decide _); auto. Qed.

(** A round stores at most one byte, at index [n]. *)
Lemma round_frame fuel p n r out :
  round fuel p n r = Some out →
  match out with
  | Return res => res_p res = p ∧ res_n res = n
  | Continue p' n' r' | Break p' n' r' =>
      (p' = p ∧ n' = n) ∨ (∃ b, p' = <[n := b]> p ∧ n' = S n)
  end.
Proof.
  assert (Hend : ∀ q m s out,
            Some (endOfRound q m s) = Some out →
            match out with
            | Return res => res_p res = p ∧ res_n res = n
            | Continue p' n' r' | Break p' n' r' => p' = q ∧ n' = m
            end).
  { intros q m s out'. destruct (endOfRound_cases q m s) as [-> | ->];
      by intros [= <-]. }
  unfold round.
  destruct (ReadByte r) as [[err|b] r1]; [by intros [= <-]|].
  destruct (decide (b = IAC)); cycle 1.
  { intros H. apply Hend in H. destruct out; [done|right..]; exists b; done. }
  destruct (ReadByte r1) as [[err|cmd] r2]; [by intros [= <-]|].
  destruct (decide (cmd = IAC)).
  { intros H. apply Hend in H. destruct out; [done|right..]; exists IAC; done. }
  destruct (decide (cmd = DO ∨ cmd = DONT ∨ cmd = WILL ∨ cmd = WONT)).
  { destruct (ReadByte r2) as [[err|opt] r3]; [by intros [= <-]|].
    intros H. apply Hend in H. destruct out; [done|by left..]. }
  destruct (decide (cmd = SB)).
  { destruct (skipSubnegotiation fuel r2) as [[[err|] r3]|];
      [by intros [= <-]| |done].
    intros H. apply Hend in H. destruct out; [done|by left..]. }
  intros [= <-]. by left.
Qed.

Lemma Read_loop_frame fuel p n r res :
  n ≤ length p → Read_loop fuel p n r = Some res →
  n ≤ res_n res ∧ drop (res_n res) (res_p res) = drop (res_n res) p.
Proof.
  revert p n r res.
  induction fuel as [|fuel IH]; intros p n r res Hn; simpl; [done|].
  destruct (decide (n < length p)) as [Hlt|Hge]; [|by intros [= <-]].
  destruct (round fuel p n r) as [out|] eqn:Hround; [|done].
  apply round_frame in Hround.
  destruct out as [res'|p' n' r'|p' n' r'].
  - intros [= <-]. destruct Hround as [-> ->]. done.
  - intros Hrec. destruct Hround as [[-> ->]|(b & -> & ->)].
    + exact (IH _ _ _ _ Hn Hrec).
    + apply IH in Hrec; [|rewrite length_insert; lia].
      destruct Hrec as [Hle Hdrop]. split; [lia|].
      rewrite Hdrop. apply drop_insert_lt. lia.
  - intros [= <-]. simpl. destruct Hround as [[-> ->]|(b & -> & ->)].
    + done.
    + split; [lia|]. apply drop_insert_lt. lia.
Qed.

(** X5: a call writes [p[0..n)] only: the destination keeps its length,
    [n] is within it, and from index [n] on [p] is as it was. *)
Theorem X5_destination_frame (p : list byte) (t : TelnetReader)
    (res : ReadResult) :
  Read p t = Some res →
  res_p res = emitted res ++ drop (res_n res) p
  ∧ res_n res ≤ length p
  ∧ length (res_p res) = length p.
Proof.
  intros Hread.
  pose proof (Read_loop_frame _ _ _ _ _ (Nat.le_0_l _) Hread) as [_ Hdrop].
  apply Read_spec in Hread.
  destruct Hread as (raw & st & o & _ & _ & _ & Hlen & _ & Hn & _).
  split_and!; [|done..].
  unfold emitted. by rewrite <- Hdrop, take_drop.
Qed.

End OneCall.

(** ** A burst of plain data *)

Section Burst.

Lemma fill_S i c :
  fill (S i) c =
  match conn_Read defaultBufSize c with
  | ((data, Some err), c') => ((data, Some err), c')
  | (([], None), c') => fill i c'
  | ((data, None), c') => ((data, None), c')
  end.
Proof. reflexivity. Qed.

(** The first read of a burst that fits the buffer takes the whole burst
    into the buffer. *)
Lemma ReadByte_fresh_burst d later err s :
  d ≠ [] → length d ≤ defaultBufSize →
  ReadByte (mkReader [] (mkConn (d :: later) err s))
  = ReadByte (mkReader d (mkConn later err s)).
Proof.
  intros Hd Hlen. unfold ReadByte. cbn [buf rd].
  unfold maxConsecutiveEmptyReads. rewrite fill_S.
  unfold conn_Read. cbn [inbound closing outbound].
  rewrite take_ge by exact Hlen. rewrite drop_ge by exact Hlen.
  destruct d as [|b d]; [congruence|reflexivity].
Qed.

Lemma Read_loop_ext fuel p n r r' :
  n < length p → ReadByte r = ReadByte r' →
  Read_loop fuel p n r = Read_loop fuel p n r'.
Proof.
  intros Hn Hread. destruct fuel as [|fuel]; [done|]. cbn [Read_loop].
  destruct (decide (n < length p)); [|done].
  unfold round. by rewrite Hread.
Qed.

(** The loop over buffered plain data: it stores byte after byte until
    [p] is full or the buffer is empty. *)
Lemma Read_loop_buffered_plain c d :
  plain d →
  ∀ fuel p n,
    length d < fuel → n ≤ length p → (n < length p → d ≠ []) →
    Read_loop fuel p n (mkReader d c)
    = Some (mkResult (n + min (length p - n) (length d)) None
              (take n p ++ take (min (length p - n) (length d)) d
                 ++ drop (n + min (length p - n) (length d)) p)
              (mkTelnetReader
                 (mkReader (drop (min (length p - n) (length d)) d) c))).
Proof.
  induction 1 as [|b d Hb Hd IH]; intros fuel p n Hfuel Hn Hne.
  - destruct fuel as [|fuel]; [simpl in Hfuel; lia|]. cbn [Read_loop].
    destruct (decide (n < length p)) as [Hlt|_]; [by destruct (Hne Hlt)|].
    cbn [length]. rewrite Nat.min_0_r. simpl.
    by rewrite Nat.add_0_r, take_drop.
  - destruct fuel as [|fuel]; [simpl in Hfuel; lia|]. cbn [Read_loop].
    simpl in Hfuel.
    destruct (decide (n < length p)) as [Hlt|Hge]; cycle 1.
    { replace (length p - n) with 0 by lia. simpl.
      by rewrite Nat.add_0_r, take_drop. }
    unfold round. cbn [ReadByte buf rd].
    destruct (decide (b = IAC)); [done|].
    replace (min (length p - n) (length (b :: d)))
      with (S (min (length p - S n) (length d))) by (simpl; lia).
    unfold endOfRound, Buffered. cbn [buf].
    destruct (decide (length d = 0 ∧ 0 < S n)) as [[Hnil _]|Hmore].
    + destruct d; [|done]. simpl. rewrite Nat.min_0_r. simpl.
      do 2 f_equal; [lia|].
      rewrite (insert_take_drop p n b Hlt). do 3 f_equal. lia.
    + assert (Hd' : d ≠ []) by (intros ->; apply Hmore; simpl; lia).
      rewrite (IH fuel (<[n := b]> p) (S n)); rewrite ?length_insert;
        [|lia|lia|done].
      do 2 f_equal; [lia|].
      rewrite (take_store p n b Hlt), <- app_assoc. simpl.
      do 3 f_equal. rewrite drop_insert_lt by lia. f_equal. lia.
Qed.

(** X7: the first call on a connection whose first burst is plain data
    that fits the buffer returns that burst, or as much of it as [p] holds:
    it reports no error, does not wait for the bursts that follow, and
    keeps what did not fit [p] buffered. *)
Theorem X7_first_burst (err : error) (s : list byte) (d : list byte)
    (later : list (list byte)) (p : list byte) :
  plain d → d ≠ [] → length d ≤ defaultBufSize →
  0 < length p →
  Read p (NewTelnetReader (mkConn (d :: later) err s))
  = Some (mkResult (min (length p) (length d)) None
            (take (min (length p) (length d)) d
               ++ drop (min (length p) (length d)) p)
            (mkTelnetReader
               (mkReader (drop (min (length p) (length d)) d)
                  (mkConn later err s)))).
Proof.
  intros Hplain Hd Hlen Hp. unfold Read, NewTelnetReader, NewReader.
  cbn [reader].
  rewrite (Read_loop_ext _ _ _ _ (mkReader d (mkConn later err s)) Hp
             (ReadByte_fresh_burst d later err s Hd Hlen)).
  clear Hlen.
  rewrite (Read_loop_buffered_plain _ d Hplain); [| |lia|done].
  - rewrite Nat.sub_0_r. by rewrite take_0.
  - unfold unread. cbn [buf rd inbound]. simpl. rewrite length_app. lia.
Qed.

End Burst.

(** ** The further properties at concrete inputs *)

Section MoreInstances.

(** "a", IAC GA (249), "b", cut between IAC and GA. *)
Lemma X1_unrecognized_command_discarded_witness :
  ∃ out t1 t2,
    Copy [x00; x00] (NewTelnetReader (delivering EOF [] [[x62]]))
    = Some (out, EOF, t2)
    ∧ Copy [x00; x00]
        (NewTelnetReader (delivering EOF [] [[x61; xff]; [xf9; x62]]))
      = Some ([x61] ++ out, EOF, t1).
Proof.
  apply (X1_unrecognized_command_discarded EOF [] xf9 [x61] [x62]).
  - split_and!; [done| |done].
    unfold is_negotiation. by intros [?|[?|[?|?]]].
  - by repeat constructor.
  - reflexivity.
  - unfold maxConsecutiveEmptyReads. simpl. lia.
  - simpl. lia.
Defined.

(** The data 1, 255, 255, 2 travels as 1, 255, 255, 255, 255, 2. *)
Lemma X2_escape_round_trip_witness :
  ∃ t', Copy [x00; x00; x00]
          (NewTelnetReader
             (delivering EOF [] [[x01; xff]; [xff; xff]; [xff; x02]]))
        = Some ([x01; xff; xff; x02], EOF, t').
Proof.
  apply (X2_escape_round_trip EOF [] [x01; xff; xff; x02]).
  - reflexivity.
  - unfold maxConsecutiveEmptyReads. simpl. lia.
  - simpl. lia.
Defined.

Lemma X3_output_is_subsequence_witness :
  let t := NewTelnetReader
             (mkConn [[x41; xff; xfb]; [x01; x42; xff; xff]] EOF []) in
  ∃ out t',
    Copy [x00; x00] t = Some (out, EOF, t')
    ∧ out `sublist_of` [x41; xff; xfb; x01; x42; xff; xff]
    ∧ length out ≤ 7.
Proof.
  apply (X3_output_is_subsequence [x00; x00]
           (NewTelnetReader
              (mkConn [[x41; xff; xfb]; [x01; x42; xff; xff]] EOF []))).
  - simpl. lia.
  - unfold paced, maxConsecutiveEmptyReads. simpl. lia.
Defined.

Lemma X4_emitted_from_consumed_witness :
  let t := NewTelnetReader (mkConn [[x41; xff; xfd; x01]; [x42]] EOF []) in
  let res := mkResult 1 None [x41; x00; x00]
               (mkTelnetReader (mkReader [] (mkConn [[x42]] EOF []))) in
  ∃ raw, unread (reader t) = raw ++ unread (reader (res_t res))
         ∧ emitted res `sublist_of` raw
         ∧ res_n res ≤ length raw.
Proof.
  apply (X4_emitted_from_consumed [x00; x00; x00]
           (NewTelnetReader (mkConn [[x41; xff; xfd; x01]; [x42]] EOF []))).
  reflexivity.
Defined.

(** A destination that holds old bytes: the call overwrites the first. *)
Lemma X5_destination_frame_witness :
  let res := mkResult 1 None [x41; x38; x39]
               (mkTelnetReader (mkReader [] (mkConn [[x42]] EOF []))) in
  res_p res = emitted res ++ drop (res_n res) [x37; x38; x39]
  ∧ res_n res ≤ 3
  ∧ length (res_p res) = 3.
Proof.
  apply (X5_destination_frame [x37; x38; x39]
           (NewTelnetReader (mkConn [[x41; xff; xfd; x01]; [x42]] EOF []))).
  reflexivity.
Defined.

Lemma X6_short_return_drains_buffer_witness :
  let res := mkResult 1 None [x41; x00; x00]
               (mkTelnetReader (mkReader [] (mkConn [[x42]] EOF []))) in
  Buffered (reader (res_t res)) = 0 ∧ 0 < res_n res.
Proof.
  apply (X6_short_return_drains_buffer [x00; x00; x00]
           (NewTelnetReader (mkConn [[x41; xff; xfd; x01]; [x42]] EOF []))).
  - reflexivity.
  - reflexivity.
  - simpl. lia.
Defined.

(** "hi" is there, "!" comes later: the call returns "hi". *)
Lemma X7_first_burst_witness :
  Read [x00; x00; x00; x00]
    (NewTelnetReader (mkConn [[x68; x69]; [x21]] EOF []))
  = Some (mkResult 2 None [x68; x69; x00; x00]
            (mkTelnetReader (mkReader [] (mkConn [[x21]] EOF [])))).
Proof.
  apply (X7_first_burst EOF [] [x68; x69] [[x21]] [x00; x00; x00; x00]).
  - by repeat constructor.
  - done.
  - unfold defaultBufSize. simpl. lia.
  - simpl. lia.
Defined.

Lemma X8_buffer_independent_witness :
  let t := NewTelnetReader
             (mkConn [[x41; xff; xfb]; [x01; x42; xff; xff]] EOF []) in
  ∃ out err t1 t2,
    Copy [x00] t = Some (out, err, t1)
    ∧ Copy [x37; x38; x39; x30] t = Some (out, err, t2).
Proof.
  apply (X8_buffer_independent [x00] [x37; x38; x39; x30]
           (NewTelnetReader
              (mkConn [[x41; xff; xfb]; [x01; x42; xff; xff]] EOF []))).
  - simpl. lia.
  - simpl. lia.
  - unfold paced, maxConsecutiveEmptyReads. simpl. lia.
Defined.

Lemma X9_calls_compose_witness :
  let t := NewTelnetReader (mkConn [[x41; xff; xfd; x01]; [x42; xff]] EOF []) in
  let res := mkResult 1 None [x41; x00; x00]
               (mkTelnetReader (mkReader [] (mkConn [[x42; xff]] EOF []))) in
  ∃ out t1 t2,
    Copy [x00; x00] (res_t res) = Some (out, EOF, t2)
    ∧ Copy [x00; x00] t = Some (emitted res ++ out, EOF, t1).
Proof.
  apply (X9_calls_compose [x00; x00; x00] [x00; x00]
           (NewTelnetReader
              (mkConn [[x41; xff; xfd; x01]; [x42; xff]] EOF []))).
  - reflexivity.
  - reflexivity.
  - unfold paced, maxConsecutiveEmptyReads. simpl. lia.
  - simpl. lia.
Defined.

End MoreInstances.
